(** * imap-proxy: the MIME decoding core and the SMTP transporter cache

  A shallow embedding of [decodePart], [extractBodyFromSource],
  [extractAttachmentsFromSource] and [getTransporter] of [index.js],
  with the properties of the specification stated over it.

  JavaScript strings are modelled as [string]: sequences of 8-bit
  characters, that is the code units 0..255 (Latin-1).  On that range
  [toLowerCase], [trim] and the regular-expression class [\s] are the
  per-character functions written below. *)

From stdpp Require Import gmap strings.
From Stdlib Require Import String Ascii List Arith Lia Bool ZArith DecimalString.
Import ListNotations.
Open Scope list_scope.
Open Scope string_scope.
Open Scope nat_scope.

(* ================================================================== *)
(** * Characters *)

Module Chars.

Definition code (c : ascii) : nat := nat_of_ascii c.

Definition between (lo hi : nat) (c : ascii) : bool :=
  (lo <=? code c) && (code c <=? hi).

Definition TAB : ascii := ascii_of_nat 9.
Definition LF : ascii := ascii_of_nat 10.
Definition CR : ascii := ascii_of_nat 13.
Definition DQUOTE : ascii := ascii_of_nat 34.

(** [\s] of a JS regular expression and the white space removed by
    [trim], restricted to 0..255: TAB, LF, VT, FF, CR, SPACE, NBSP. *)
Definition isSpace (c : ascii) : bool :=
  between 9 13 c || (code c =? 32) || (code c =? 160).

(** [\S] *)
Definition notSpace (c : ascii) : bool := negb (isSpace c).

(** [[0-9A-Fa-f]] *)
Definition isHex (c : ascii) : bool :=
  between 48 57 c || between 65 70 c || between 97 102 c.

(** The class excluding the double quote, the semicolon, CR and LF. *)
Definition isTokenChar (c : ascii) : bool :=
  negb ((code c =? 34) || (code c =? 59) || (code c =? 13) || (code c =? 10)).

(** The class excluding the semicolon, CR and LF. *)
Definition isTypeChar (c : ascii) : bool :=
  negb ((code c =? 59) || (code c =? 13) || (code c =? 10)).

(** The upper-case letters of 0..255: A-Z, and À-Þ without the
    multiplication sign. *)
Definition isUpper (c : ascii) : bool :=
  between 65 90 c || (between 192 222 c && negb (code c =? 215)).

Definition toLower (c : ascii) : ascii :=
  if isUpper c then ascii_of_nat (code c + 32) else c.

(** Value of a hexadecimal digit ([parseInt(_, 16)] on one digit). *)
Definition hexVal (c : ascii) : nat :=
  if between 48 57 c then code c - 48
  else if between 65 70 c then code c - 55
  else if between 97 102 c then code c - 87
  else 0.

End Chars.

(* ================================================================== *)
(** * String primitives of the JS runtime used by the source *)

Module JsString.
Import Chars.

Definition CRLF : string := String CR (String LF EmptyString).
Definition CRLFCRLF : string := CRLF ++ CRLF.
Definition QUOTE : string := String DQUOTE EmptyString.

(** Truthiness of a string: non-empty. *)
Definition truthy (s : string) : bool :=
  match s with EmptyString => false | String _ _ => true end.

(** [a || b] on strings. *)
Definition orElse (a b : string) : string := if truthy a then a else b.

Fixpoint take (n : nat) (s : string) : string :=
  match n, s with
  | S k, String c t => String c (take k t)
  | _, _ => EmptyString
  end.

Fixpoint drop (n : nat) (s : string) : string :=
  match n, s with
  | S k, String _ t => drop k t
  | _, _ => s
  end.

(** [s.substring(0, n)] and [s.substring(n)] *)
Definition substringTo (n : nat) (s : string) : string := take n s.
Definition substringFrom (n : nat) (s : string) : string := drop n s.

Definition startsWith (p s : string) : bool := prefix p s.

(** [s.indexOf(needle)]; [None] stands for -1. *)
Fixpoint indexOf (needle s : string) : option nat :=
  if prefix needle s then Some 0
  else match s with
       | EmptyString => None
       | String _ t => option_map S (indexOf needle t)
       end.

Definition includes (needle s : string) : bool :=
  match indexOf needle s with Some _ => true | None => false end.

Fixpoint toLowerCase (s : string) : string :=
  match s with
  | EmptyString => EmptyString
  | String c t => String (toLower c) (toLowerCase t)
  end.

Fixpoint trimStart (s : string) : string :=
  match s with
  | String c t => if isSpace c then trimStart t else s
  | EmptyString => EmptyString
  end.

Fixpoint trimEnd (s : string) : string :=
  match s with
  | EmptyString => EmptyString
  | String c t =>
      match trimEnd t with
      | EmptyString => if isSpace c then EmptyString else String c EmptyString
      | r => String c r
      end
  end.

Definition trim (s : string) : string := trimEnd (trimStart s).

(** [s.split(sep)] for a non-empty separator (every call of the source
    passes two dashes followed by the boundary).  [skip] counts the characters of the
    separator just found that are still to be consumed; the head of the
    result is the piece being built. *)
Fixpoint splitFrom (sep s : string) (skip : nat) : list string :=
  match s with
  | EmptyString => [EmptyString]
  | String c t =>
      match skip with
      | S k => splitFrom sep t k
      | O =>
          if prefix sep s then EmptyString :: splitFrom sep t (String.length sep - 1)
          else match splitFrom sep t 0 with
               | p :: ps => String c p :: ps
               | [] => [String c EmptyString]
               end
      end
  end.

Definition split (sep s : string) : list string := splitFrom sep s 0.

End JsString.

(* ================================================================== *)
(** * Regular expressions

  The fragment of JS regular expressions the source uses, with the
  backtracking semantics of the language: greedy quantifiers, leftmost
  match, capture groups.  Quantifiers [*] and [+] only occur on
  character classes in the source. *)

Module Regex.
Import Chars JsString.

Inductive regex : Type :=
| Eps
| Lit (c : ascii)
| Class (p : ascii -> bool)
| Seq (r1 r2 : regex)
| Opt (r : regex)
| Star (p : ascii -> bool)
| Plus (p : ascii -> bool)
| Group (r : regex)
| EndOfInput.

(** A literal run of characters. *)
Fixpoint lits (w : string) : regex :=
  match w with
  | EmptyString => Eps
  | String c t => Seq (Lit c) (lits t)
  end.

(** Canonicalisation of the [i] flag.  Every literal of the source's
    patterns is an ASCII character, and no character above 127 is
    canonicalised to an ASCII one, so comparing lower-cased characters
    decides the same matches. *)
Definition sameChar (ignoreCase : bool) (a c : ascii) : bool :=
  if ignoreCase then Ascii.eqb (toLower a) (toLower c) else Ascii.eqb a c.

Section Matcher.
Context {R : Type}.

(** [p*], longest first; [pos] is the index reached in the subject. *)
Fixpoint star (p : ascii -> bool) (s : string) (pos : nat)
         (k : string -> nat -> option R) : option R :=
  match s with
  | String a t =>
      if p a then
        match star p t (S pos) k with
        | Some x => Some x
        | None => k s pos
        end
      else k s pos
  | EmptyString => k s pos
  end.

Fixpoint run (ic : bool) (r : regex) (s : string) (pos : nat)
         (caps : list string)
         (k : string -> nat -> list string -> option R) : option R :=
  match r with
  | Eps => k s pos caps
  | Lit c =>
      match s with
      | String a t => if sameChar ic a c then k t (S pos) caps else None
      | EmptyString => None
      end
  | Class p =>
      match s with
      | String a t => if p a then k t (S pos) caps else None
      | EmptyString => None
      end
  | Seq r1 r2 =>
      run ic r1 s pos caps (fun s1 p1 c1 => run ic r2 s1 p1 c1 k)
  | Opt r1 =>
      match run ic r1 s pos caps k with
      | Some x => Some x
      | None => k s pos caps
      end
  | Star p => star p s pos (fun s1 p1 => k s1 p1 caps)
  | Plus p =>
      match s with
      | String a t =>
          if p a then star p t (S pos) (fun s1 p1 => k s1 p1 caps) else None
      | EmptyString => None
      end
  | Group r1 =>
      run ic r1 s pos caps
          (fun s1 p1 c1 => k s1 p1 (c1 ++ [take (p1 - pos) s])%list)
  | EndOfInput =>
      match s with
      | EmptyString => k s pos caps
      | String _ _ => None
      end
  end.
End Matcher.

(** A match anchored at the start of [s]: its length and its groups. *)
Definition matchAt (ic : bool) (r : regex) (s : string)
  : option (nat * list string) :=
  run ic r s 0 [] (fun _ n caps => Some (n, caps)).

(** [s.match(re)] without the [g] flag: the groups of the leftmost match. *)
Fixpoint search (ic : bool) (r : regex) (s : string) : option (list string) :=
  match matchAt ic r s with
  | Some (_, caps) => Some caps
  | None =>
      match s with
      | EmptyString => None
      | String _ t => search ic r t
      end
  end.

(** [m[1]] *)
Definition group1 (caps : list string) : string := nth 0 caps EmptyString.

(** [m?.[1]], or the empty string without a match. *)
Definition group1OrEmpty (m : option (list string)) : string :=
  match m with Some caps => group1 caps | None => EmptyString end.

(** [s.replace(re, f)] with the [g] flag.  [skip] counts the characters
    of the current match that are still to be consumed. *)
Fixpoint replaceAllFrom (ic : bool) (r : regex) (f : list string -> string)
         (s : string) (skip : nat) : string :=
  match s with
  | EmptyString =>
      match skip, matchAt ic r s with
      | O, Some (_, caps) => f caps
      | _, _ => EmptyString
      end
  | String c t =>
      match skip with
      | S k => replaceAllFrom ic r f t k
      | O =>
          match matchAt ic r s with
          | Some (O, caps) => f caps ++ String c (replaceAllFrom ic r f t 0)
          | Some (S n, caps) => f caps ++ replaceAllFrom ic r f t n
          | None => String c (replaceAllFrom ic r f t 0)
          end
      end
  end.

Definition replaceAll (ic : bool) (r : regex) (f : list string -> string)
           (s : string) : string :=
  replaceAllFrom ic r f s 0.

(** [s.replace(re, f)] without the [g] flag: the leftmost match only. *)
Fixpoint replaceFirst (ic : bool) (r : regex) (f : list string -> string)
         (s : string) : string :=
  match matchAt ic r s with
  | Some (n, caps) => f caps ++ drop n s
  | None =>
      match s with
      | EmptyString => EmptyString
      | String c t => String c (replaceFirst ic r f t)
      end
  end.

End Regex.

(* ================================================================== *)
(** * The MIME decoding core of [index.js] *)

Module Mime.
Import Chars JsString Regex.

(** ** Patterns of the source *)

(** [/\s/g] *)
Definition spaceRe : regex := Class isSpace.

(** [/=\r?\n/g] *)
Definition softBreakRe : regex :=
  Seq (Lit "="%char) (Seq (Opt (Lit CR)) (Lit LF)).

(** [/=([0-9A-Fa-f]{2})/g] *)
Definition hexEscapeRe : regex :=
  Seq (Lit "="%char) (Group (Seq (Class isHex) (Class isHex))).

(** The tail shared by the boundary and the filename patterns: an optional
    double quote, group 1 of one or more characters other than double
    quote, semicolon, CR and LF, an optional double quote. *)
Definition quotedToken : regex :=
  Seq (Opt (Lit DQUOTE)) (Seq (Group (Plus isTokenChar)) (Opt (Lit DQUOTE))).

(** [/boundary=.../i], the token being [quotedToken] *)
Definition boundaryRe : regex := Seq (lits "boundary=") quotedToken.

(** [/filename=.../i], the token being [quotedToken] *)
Definition filenameRe : regex := Seq (lits "filename=") quotedToken.

(** [/content-transfer-encoding:\s*(\S+)/], with or without the [i] flag *)
Definition encodingRe : regex :=
  Seq (lits "content-transfer-encoding:")
      (Seq (Star isSpace) (Group (Plus notSpace))).

(** [/Content-Type:\s*([^;\r\n]+)/i] *)
Definition contentTypeRe : regex :=
  Seq (lits "Content-Type:") (Seq (Star isSpace) (Group (Plus isTypeChar))).

(** [/--$/] *)
Definition trailingDashesRe : regex := Seq (lits "--") EndOfInput.

Definition noText (_ : list string) : string := EmptyString.

(** [s.replace(/\s/g, e)] with the empty string [e] *)
Definition stripWhitespace (s : string) : string :=
  replaceAll false spaceRe noText s.

(** [parseInt(h, 16)] on a run of hexadecimal digits. *)
Fixpoint parseHexFrom (acc : nat) (h : string) : nat :=
  match h with
  | String c t => if isHex c then parseHexFrom (16 * acc + hexVal c) t else acc
  | EmptyString => acc
  end.

Definition parseHex (h : string) : nat := parseHexFrom 0 h.

(** [String.fromCharCode(n)] for a code below 256. *)
Definition fromCharCode (n : nat) : string := String (ascii_of_nat n) EmptyString.

(** The callback of the hex-escape replacement:
    [(_, hex) => String.fromCharCode(parseInt(hex, 16))]. *)
Definition hexEscapeValue (caps : list string) : string :=
  fromCharCode (parseHex (group1 caps)).

(** ** Base64 encoding of a binary string
    [Buffer.from(s, "binary").toString("base64")]: every character is one
    byte; three bytes give four digits, the last group is padded.  The
    strings of this development are 8-bit.  Of a wider code unit the
    runtime keeps the low byte only, so the length of the result and its
    emptiness are those of [toBase64] for every string, its digits for
    8-bit strings. *)

Definition base64Alphabet : string :=
  "ABCDEFGHIJKLMNOPQRSTUVWXYZabcdefghijklmnopqrstuvwxyz0123456789+/".

Definition base64Digit (n : nat) : ascii :=
  match get n base64Alphabet with Some c => c | None => "="%char end.

Fixpoint toBase64 (s : string) : string :=
  match s with
  | EmptyString => EmptyString
  | String a EmptyString =>
      String (base64Digit (code a / 4))
        (String (base64Digit ((code a mod 4) * 16)) "==")
  | String a (String b EmptyString) =>
      String (base64Digit (code a / 4))
        (String (base64Digit ((code a mod 4) * 16 + code b / 16))
           (String (base64Digit ((code b mod 16) * 4)) "="))
  | String a (String b (String c t)) =>
      String (base64Digit (code a / 4))
        (String (base64Digit ((code a mod 4) * 16 + code b / 16))
           (String (base64Digit ((code b mod 16) * 4 + code c / 64))
              (String (base64Digit (code c mod 64)) (toBase64 t))))
  end.

(** [Math.ceil(a / b)] on natural numbers. *)
Definition ceilDiv (a b : nat) : nat :=
  a / b + (if a mod b =? 0 then 0 else 1).

Record bodies : Type := mkBodies { htmlBody : string; textBody : string }.

Record attachment : Type := mkAttachment
  { filename : string; mimeType : string; size : nat; base64 : string }.

(** [part.substring(partHeaderEnd + 4).replace(/--$/, e).trim()] with the
    empty string [e]: the constant [partContent] of both walks. *)
Definition partContentOf (partHeaderEnd : nat) (part : string) : string :=
  trim (replaceFirst false trailingDashesRe noText
          (substringFrom (partHeaderEnd + 4) part)).

Section Decoder.

(** The runtime's [Buffer.from(s, "base64").toString("utf-8")]; [None]
    stands for an exception thrown by it. *)
Variable base64ToUtf8 : string -> option string.

(** ** [decodePart] *)
Definition decodePart (content encoding : string) : string :=
  if negb (truthy encoding) then content
  else
    let encoding := trim (toLowerCase encoding) in
    if String.eqb encoding "base64" then
      match base64ToUtf8 (stripWhitespace content) with
      | Some decoded => decoded
      | None => content
      end
    else if String.eqb encoding "quoted-printable" then
      replaceAll false hexEscapeRe hexEscapeValue
        (replaceAll false softBreakRe noText content)
    else content.

(** ** [extractBodyFromSource] *)

(** One iteration of the loop over the parts; [recur] is the recursive
    call, [acc] the variables [htmlBody] and [textBody]. *)
Definition bodyStep (recur : string -> option string)
           (acc : bodies) (part : string) : option bodies :=
  if startsWith "--" part || negb (truthy (trim part)) then Some acc
  else
    match indexOf CRLFCRLF part with
    | None => Some acc
    | Some partHeaderEnd =>
        let partHeaders := toLowerCase (substringTo partHeaderEnd part) in
        let partContent := partContentOf partHeaderEnd part in
        match search true boundaryRe partHeaders with
        | Some _ =>
            match recur (substringFrom (partHeaderEnd + 4) part) with
            | None => None
            | Some nested =>
                if truthy nested then
                  if negb (truthy (htmlBody acc)) && includes "<" nested
                  then Some (mkBodies nested (textBody acc))
                  else if negb (truthy (textBody acc))
                       then Some (mkBodies (htmlBody acc) nested)
                       else Some acc
                else Some acc
            end
        | None =>
            let encMatch := search false encodingRe partHeaders in
            let decoded := decodePart partContent (group1OrEmpty encMatch) in
            if includes "text/html" partHeaders
            then Some (mkBodies decoded (textBody acc))
            else if includes "text/plain" partHeaders
                 then Some (mkBodies (htmlBody acc) decoded)
                 else Some acc
        end
    end.

Fixpoint bodyLoop (recur : string -> option string)
         (acc : bodies) (parts : list string) : option bodies :=
  match parts with
  | [] => Some acc
  | part :: rest =>
      match bodyStep recur acc part with
      | Some acc' => bodyLoop recur acc' rest
      | None => None
      end
  end.

(** [htmlBody || textBody || e] with the empty string [e] *)
Definition resolveBody (acc : bodies) : string :=
  orElse (orElse (htmlBody acc) (textBody acc)) EmptyString.

(** The branch taken when no boundary is found. *)
Definition singleEntityBody (raw : string) : string :=
  match indexOf CRLFCRLF raw with
  | None => EmptyString
  | Some bodyStart =>
      let headerSection := toLowerCase (substringTo bodyStart raw) in
      let body := substringFrom (bodyStart + 4) raw in
      let encMatch := search true encodingRe headerSection in
      trim (decodePart body (group1OrEmpty encMatch))
  end.

(** The function with its recursion bounded by [fuel]; [None] only when
    the fuel runs out. *)
Fixpoint extractBodyFuel (fuel : nat) (raw : string) : option string :=
  match fuel with
  | O => None
  | S n =>
      match search true boundaryRe raw with
      | None => Some (singleEntityBody raw)
      | Some boundaryMatch =>
          let boundary := trim (group1 boundaryMatch) in
          let parts := split ("--" ++ boundary) raw in
          option_map resolveBody
            (bodyLoop (extractBodyFuel n) (mkBodies EmptyString EmptyString) parts)
      end
  end.

(** Every recursive call is on a strictly shorter text, so this fuel is
    enough (see [extractBodyFuel_enough]). *)
Definition extractBodyFromSource (raw : string) : option string :=
  extractBodyFuel (S (String.length raw)) raw.

End Decoder.

(** ** [extractAttachmentsFromSource] *)

(** The constants [isAttachment] and [isInlineWithFilename]. *)
Definition isAttachment (partHeaders : string) : bool :=
  includes "content-disposition: attachment" partHeaders
  || (includes "filename=" partHeaders
      && negb (includes "text/plain" partHeaders)
      && negb (includes "text/html" partHeaders)).

Definition isInlineWithFilename (partHeaders : string) : bool :=
  includes "content-disposition: inline" partHeaders
  && includes "filename=" partHeaders.

(** The constants [filename], [mimeType] and [encoding]. *)
Definition filenameOf (partHeadersRaw : string) : string :=
  match search true filenameRe partHeadersRaw with
  | Some m => trim (group1 m)
  | None => "attachment"
  end.

Definition mimeTypeOf (partHeadersRaw : string) : string :=
  match search true contentTypeRe partHeadersRaw with
  | Some m => trim (group1 m)
  | None => "application/octet-stream"
  end.

Definition encodingOf (partHeaders : string) : string :=
  match search false encodingRe partHeaders with
  | Some m => toLowerCase (trim (group1 m))
  | None => EmptyString
  end.

(** The variable [base64Data]. *)
Definition base64DataOf (encoding partContent : string) : string :=
  if String.eqb encoding "base64" then stripWhitespace partContent
  else toBase64 partContent.

(** One iteration of the loop; [attachments] is the array built so far. *)
Definition attachmentStep (recur : string -> option (list attachment))
           (attachments : list attachment) (part : string)
  : option (list attachment) :=
  if startsWith "--" part || negb (truthy (trim part)) then Some attachments
  else
    match indexOf CRLFCRLF part with
    | None => Some attachments
    | Some partHeaderEnd =>
        let partHeadersRaw := substringTo partHeaderEnd part in
        let partHeaders := toLowerCase partHeadersRaw in
        let partContent := partContentOf partHeaderEnd part in
        match search true boundaryRe partHeaders with
        | Some _ =>
            match recur (substringFrom (partHeaderEnd + 4) part) with
            | None => None
            | Some nested => Some (attachments ++ nested)%list
            end
        | None =>
            if isAttachment partHeaders || isInlineWithFilename partHeaders then
              let base64Data := base64DataOf (encodingOf partHeaders) partContent in
              if truthy base64Data then
                Some (attachments ++
                      [mkAttachment (filenameOf partHeadersRaw)
                         (mimeTypeOf partHeadersRaw)
                         (ceilDiv (String.length base64Data * 3) 4)
                         base64Data])%list
              else Some attachments
            else Some attachments
        end
    end.

Fixpoint attachmentLoop (recur : string -> option (list attachment))
         (attachments : list attachment) (parts : list string)
  : option (list attachment) :=
  match parts with
  | [] => Some attachments
  | part :: rest =>
      match attachmentStep recur attachments part with
      | Some attachments' => attachmentLoop recur attachments' rest
      | None => None
      end
  end.

Fixpoint extractAttachmentsFuel (fuel : nat) (raw : string)
  : option (list attachment) :=
  match fuel with
  | O => None
  | S n =>
      match search true boundaryRe raw with
      | None => Some []
      | Some boundaryMatch =>
          let boundary := trim (group1 boundaryMatch) in
          let parts := split ("--" ++ boundary) raw in
          attachmentLoop (extractAttachmentsFuel n) [] parts
      end
  end.

Definition extractAttachmentsFromSource (raw : string)
  : option (list attachment) :=
  extractAttachmentsFuel (S (String.length raw)) raw.

End Mime.

(* ================================================================== *)
(** * The SMTP transporter cache of [index.js] *)

Module Smtp.

(** [const TRANSPORTER_TTL = 5 * 60 * 1000], in milliseconds. *)
Definition TRANSPORTER_TTL : Z := 5 * 60 * 1000.

(** The options object given to [nodemailer.createTransport]. *)
Record transportOptions : Type := mkOptions
  { host : string;
    port : nat;
    secure : bool;
    pool : bool;
    maxConnections : nat;
    maxMessages : nat;
    connectionTimeout : Z;
    greetingTimeout : Z;
    socketTimeout : Z;
    authUser : string;
    authPass : string }.

(** A transporter object: [tid] is its identity (the allocation that made
    it), so two transporters are the same instance when they are equal. *)
Record transporter : Type := mkTransporter
  { tid : nat; options : transportOptions }.

(** A value of the cache: [{ transporter, created }]. *)
Record cacheEntry : Type := mkEntry
  { cachedTransporter : transporter; created : Z }.

(** What a call does to the outside, in the order it does it.  [Created]
    also records the cache key on whose behalf the transporter was made. *)
Inductive event : Type :=
| Closed (t : transporter)
| Evicted (key : string)
| Created (key : string) (t : transporter)
| Installed (key : string) (t : transporter).

(** The process state: the module-level [transporterCache], the number of
    transporter objects allocated so far, and the trace of events. *)
Record world : Type := mkWorld
  { transporterCache : gmap string cacheEntry;
    allocated : nat;
    trace : list event }.

Definition initial : world := mkWorld ∅ 0 [].

(** [`${smtpPort}`]: a number in decimal, or the text of [undefined]. *)
Definition portText (smtpPort : option nat) : string :=
  match smtpPort with
  | Some n => NilEmpty.string_of_uint (Nat.to_uint n)
  | None => "undefined"
  end.

(** [smtpPort || 465] *)
Definition portOrDefault (smtpPort : option nat) : nat :=
  match smtpPort with
  | Some (S n) => S n
  | _ => 465
  end.

(** [`${smtpHost}:${smtpPort}:${smtpUser}`] *)
Definition cacheKeyOf (smtpHost : string) (smtpPort : option nat)
           (smtpUser : string) : string :=
  smtpHost ++ ":" ++ portText smtpPort ++ ":" ++ smtpUser.

Definition optionsOf (smtpHost : string) (smtpPort : option nat)
           (smtpUser smtpPass : string) : transportOptions :=
  mkOptions smtpHost (portOrDefault smtpPort)
            (portOrDefault smtpPort =? 465)
            true 3 50 15000%Z 10000%Z 30000%Z smtpUser smtpPass.

(** [try { t.close(); } catch {}]: the call is made, a failure is dropped. *)
Definition close (t : transporter) (w : world) : world :=
  mkWorld (transporterCache w) (allocated w) (trace w ++ [Closed t]).

(** [transporterCache.delete(key)] *)
Definition cacheDelete (key : string) (w : world) : world :=
  mkWorld (delete key (transporterCache w)) (allocated w)
          (trace w ++ [Evicted key]).

(** [nodemailer.createTransport(opts)]: a new object. *)
Definition createTransport (key : string) (opts : transportOptions)
           (w : world) : transporter * world :=
  let t := mkTransporter (allocated w) opts in
  (t, mkWorld (transporterCache w) (S (allocated w))
              (trace w ++ [Created key t])).

(** [transporterCache.set(key, { transporter, created })] *)
Definition cacheSet (key : string) (t : transporter) (now : Z)
           (w : world) : world :=
  mkWorld (<[key := mkEntry t now]> (transporterCache w)) (allocated w)
          (trace w ++ [Installed key t]).

(** The tail of [getTransporter]: make a transporter, store it, return it. *)
Definition installNew (cacheKey : string) (opts : transportOptions)
           (now : Z) (w : world) : transporter * world :=
  let (t, w1) := createTransport cacheKey opts w in
  (t, cacheSet cacheKey t now w1).

(** [getTransporter].  [nowCheck] and [nowStore] are the values read from
    [Date.now()] by the freshness test and by the final [set]. *)
Definition getTransporter (smtpHost : string) (smtpPort : option nat)
           (smtpUser smtpPass : string) (nowCheck nowStore : Z)
           (w : world) : transporter * world :=
  let cacheKey := cacheKeyOf smtpHost smtpPort smtpUser in
  let opts := optionsOf smtpHost smtpPort smtpUser smtpPass in
  match transporterCache w !! cacheKey with
  | Some cached =>
      if (nowCheck - created cached <? TRANSPORTER_TTL)%Z
      then (cachedTransporter cached, w)
      else installNew cacheKey opts nowStore
             (cacheDelete cacheKey (close (cachedTransporter cached) w))
  | None => installNew cacheKey opts nowStore w
  end.

(** The states the process can be in: any sequence of calls. *)
Inductive reachable : world -> Prop :=
| reachable_initial : reachable initial
| reachable_call w smtpHost smtpPort smtpUser smtpPass nowCheck nowStore :
    reachable w ->
    reachable (snd (getTransporter smtpHost smtpPort smtpUser smtpPass
                                   nowCheck nowStore w)).

Definition options_eq_dec (a b : transportOptions) : {a = b} + {a <> b}.
Proof.
  decide equality;
    auto using string_dec, Nat.eq_dec, Bool.bool_dec, Z.eq_dec.
Defined.

Definition transporter_eq_dec (a b : transporter) : {a = b} + {a <> b}.
Proof. decide equality; auto using options_eq_dec, Nat.eq_dec. Defined.

Definition event_eq_dec (a b : event) : {a = b} + {a <> b}.
Proof. decide equality; auto using transporter_eq_dec, string_dec. Defined.

(** How many times [close] was called on [t]. *)
Definition closeCount (l : list event) (t : transporter) : nat :=
  count_occ event_eq_dec l (Closed t).

(** A transporter made for [key] that has not been closed, as of a trace. *)
Definition live (l : list event) (key : string) (t : transporter) : Prop :=
  In (Created key t) l /\ ~ In (Closed t) l.

Definition atMostOneLive (l : list event) : Prop :=
  forall key t1 t2, live l key t1 -> live l key t2 -> t1 = t2.

(** The three ways a call of [getTransporter] can go. *)
Inductive outcome (w : world) (key : string) (opts : transportOptions)
          (nowCheck nowStore : Z) : transporter * world -> Prop :=
| Hit cached :
    transporterCache w !! key = Some cached ->
    (nowCheck - created cached < TRANSPORTER_TTL)%Z ->
    outcome w key opts nowCheck nowStore (cachedTransporter cached, w)
| Expired cached :
    transporterCache w !! key = Some cached ->
    (TRANSPORTER_TTL <= nowCheck - created cached)%Z ->
    let t := mkTransporter (allocated w) opts in
    outcome w key opts nowCheck nowStore
      (t, mkWorld (<[key := mkEntry t nowStore]> (delete key (transporterCache w)))
                  (S (allocated w))
                  (trace w ++ [Closed (cachedTransporter cached); Evicted key;
                               Created key t; Installed key t]))
| Miss :
    transporterCache w !! key = None ->
    let t := mkTransporter (allocated w) opts in
    outcome w key opts nowCheck nowStore
      (t, mkWorld (<[key := mkEntry t nowStore]> (transporterCache w))
                  (S (allocated w))
                  (trace w ++ [Created key t; Installed key t])).

Definition noLive (l : list event) (key : string) : Prop :=
  forall t, ~ live l key t.

Definition isCreation (ev : event) : bool :=
  match ev with Created _ _ => true | _ => false end.

(** The invariant of the process state. *)
Record invariant (w : world) : Prop := mkInvariant
  { cached_live : forall key e,
      transporterCache w !! key = Some e ->
      live (trace w) key (cachedTransporter e);
    created_known : forall key t,
      In (Created key t) (trace w) -> tid t < allocated w;
    live_cached : forall key t,
      live (trace w) key t ->
      exists e, transporterCache w !! key = Some e /\ cachedTransporter e = t;
    closed_created : forall t,
      In (Closed t) (trace w) -> exists key, In (Created key t) (trace w);
    created_once : forall key1 key2 t,
      In (Created key1 t) (trace w) -> In (Created key2 t) (trace w) ->
      key1 = key2;
    instants : forall pre suf,
      trace w = (pre ++ suf)%list -> atMostOneLive pre }.

End Smtp.

(* ================================================================== *)
(** * Definitions used to state the properties *)

Module Spec.
Import Chars JsString Regex Mime.

(** ** Quoted-printable, in the words of the specification *)

(** Remove every soft line break: an equals sign immediately followed by
    CR LF or by LF; one pass from left to right. *)
Fixpoint removeSoftBreaks (s : string) : string :=
  match s with
  | EmptyString => EmptyString
  | String c t =>
      if Ascii.eqb c "="%char then
        match t with
        | String c1 t1 =>
            if Ascii.eqb c1 LF then removeSoftBreaks t1
            else
              match t1 with
              | String c2 t2 =>
                  if Ascii.eqb c1 CR && Ascii.eqb c2 LF
                  then removeSoftBreaks t2
                  else String c (removeSoftBreaks t)
              | EmptyString => String c (removeSoftBreaks t)
              end
        | EmptyString => String c EmptyString
        end
      else String c (removeSoftBreaks t)
  end.

(** Replace each equals sign followed by two hexadecimal digits with the
    character of that code; left to right, without overlap. *)
Fixpoint unescapeHex (s : string) : string :=
  match s with
  | EmptyString => EmptyString
  | String c t =>
      if Ascii.eqb c "="%char then
        match t with
        | String h1 (String h2 t2) =>
            if isHex h1 && isHex h2
            then String (ascii_of_nat (16 * hexVal h1 + hexVal h2)) (unescapeHex t2)
            else String c (unescapeHex t)
        | _ => String c (unescapeHex t)
        end
      else String c (unescapeHex t)
  end.

(** The characters of [s] that are not white space, in order. *)
Fixpoint withoutWhitespace (s : string) : string :=
  match s with
  | EmptyString => EmptyString
  | String c t =>
      if isSpace c then withoutWhitespace t else String c (withoutWhitespace t)
  end.

(** [s] ends with two dashes. *)
Fixpoint endsWithDashes (s : string) : bool :=
  match s with
  | EmptyString => false
  | String _ t => String.eqb s "--" || endsWithDashes t
  end.

(** ** The parts of one level of a multipart source *)

(** What the two walks do with a part before looking at its type: skip
    it, recurse into it, or treat it as a leaf with its header block (in
    its original case) and its content. *)
Inductive partKind : Type :=
| Skipped
| NestedPart (body : string)
| LeafPart (partHeadersRaw partContent : string).

Definition classifyPart (part : string) : partKind :=
  if startsWith "--" part || negb (truthy (trim part)) then Skipped
  else
    match indexOf CRLFCRLF part with
    | None => Skipped
    | Some partHeaderEnd =>
        let partHeadersRaw := substringTo partHeaderEnd part in
        match search true boundaryRe (toLowerCase partHeadersRaw) with
        | Some _ => NestedPart (substringFrom (partHeaderEnd + 4) part)
        | None => LeafPart partHeadersRaw (partContentOf partHeaderEnd part)
        end
    end.

(** The decoded content of a leaf, as the body walk computes it. *)
Definition leafDecoded (rt : string -> option string)
           (partHeadersRaw partContent : string) : string :=
  decodePart rt partContent
    (group1OrEmpty (search false encodingRe (toLowerCase partHeadersRaw))).





(** The parts of the source, when it declares a boundary. *)
Definition partsOf (raw : string) : option (list string) :=
  match search true boundaryRe raw with
  | Some m => Some (split ("--" ++ trim (group1 m)) raw)
  | None => None
  end.

(** A boundary token occurs in [s]. *)
Definition hasBoundaryToken (s : string) : bool :=
  match search true boundaryRe s with Some _ => true | None => false end.

(** The header text of a source: what precedes its first blank line. *)
Definition headerText (raw : string) : string :=
  match indexOf CRLFCRLF raw with
  | Some i => substringTo i raw
  | None => raw
  end.

(** [recur1] is defined on no more texts than [recur2], with the same
    results. *)
Definition below {A : Type} (recur1 recur2 : string -> option A) : Prop :=
  forall x v, recur1 x = Some v -> recur2 x = Some v.

(** ** Two sentences of the specification, as written *)


(** A source whose header text has no boundary token is one non-multipart
    entity, whatever its body contains. *)
Definition headerDecidesMultipart : Prop :=
  forall (rt : string -> option string) (raw : string),
    hasBoundaryToken (headerText raw) = false ->
    extractBodyFromSource rt raw = Some (singleEntityBody rt raw)
    /\ extractAttachmentsFromSource raw = Some [].

(** ** Two decoders for closed examples

    [strictBase64] decodes padded base64 over the standard alphabet and
    fails on any other text.  It is not the decoder of the runtime, which
    never fails; it fills the place of the parameter in examples that do
    not reach it or that decode a well-formed padded text, where the two
    agree.  The bytes are returned as characters, which is their UTF-8
    reading when they are ASCII. *)

Definition base64Value (c : ascii) : option nat :=
  indexOf (String c EmptyString) base64Alphabet.

Definition isPad (c : ascii) : bool := Ascii.eqb c "="%char.

Fixpoint strictBase64 (s : string) : option string :=
  match s with
  | EmptyString => Some EmptyString
  | String a (String b (String c (String d t))) =>
      match base64Value a, base64Value b with
      | Some x, Some y =>
          let b1 := ascii_of_nat (x * 4 + y / 16) in
          if isPad c then
            if isPad d && negb (truthy t) then Some (String b1 EmptyString)
            else None
          else
            match base64Value c with
            | Some z =>
                let b2 := ascii_of_nat ((y mod 16) * 16 + z / 4) in
                if isPad d then
                  if negb (truthy t) then Some (String b1 (String b2 EmptyString))
                  else None
                else
                  match base64Value d, strictBase64 t with
                  | Some u, Some r =>
                      Some (String b1 (String b2
                              (String (ascii_of_nat ((z mod 4) * 64 + u)) r)))
                  | _, _ => None
                  end
            | None => None
            end
      | _, _ => None
      end
  | _ => None
  end.

(** [lenientBase64] follows the decoder of the runtime,
    [Buffer.from(s, "base64")]: a character that is no base64 digit is
    skipped (the digits of the URL-safe alphabet, minus and underscore,
    are accepted), decoding stops at the first padding character, a last
    group of two or three digits gives one or two bytes and a single
    left-over digit none; no text makes it fail.  The bytes are returned
    as characters, which is their UTF-8 reading ([toString("utf-8")])
    when they are ASCII; it is used on such texts only. *)

Definition sextetOf (c : ascii) : option nat :=
  if Ascii.eqb c "-"%char then Some 62
  else if Ascii.eqb c "_"%char then Some 63
  else base64Value c.

Fixpoint sextetsOf (s : string) : list nat :=
  match s with
  | EmptyString => []
  | String c t =>
      if isPad c then []
      else
        match sextetOf c with
        | Some v => v :: sextetsOf t
        | None => sextetsOf t
        end
  end.

Fixpoint bytesOfSextets (l : list nat) : string :=
  match l with
  | x :: y :: z :: u :: r =>
      String (ascii_of_nat (x * 4 + y / 16))
        (String (ascii_of_nat ((y mod 16) * 16 + z / 4))
           (String (ascii_of_nat ((z mod 4) * 64 + u)) (bytesOfSextets r)))
  | [x; y; z] =>
      String (ascii_of_nat (x * 4 + y / 16))
        (String (ascii_of_nat ((y mod 16) * 16 + z / 4)) EmptyString)
  | [x; y] => String (ascii_of_nat (x * 4 + y / 16)) EmptyString
  | _ => EmptyString
  end.

Definition lenientBase64 (s : string) : option string :=
  Some (bytesOfSextets (sextetsOf s)).

End Spec.

(* ================================================================== *)
(** * Concrete messages *)

Module Inputs.
Import Chars JsString.

(** Two [text/html] leaves at one level. *)
Definition twoHtmlParts : string :=
  "Content-Type: multipart/alternative; boundary=XYZ" ++ CRLF ++ CRLF
  ++ "--XYZ" ++ CRLF ++ "Content-Type: text/html" ++ CRLF ++ CRLF
  ++ "<p>first</p>" ++ CRLF
  ++ "--XYZ" ++ CRLF ++ "Content-Type: text/html" ++ CRLF ++ CRLF
  ++ "<p>second</p>" ++ CRLF
  ++ "--XYZ--".


Definition secondHtmlPart : string :=
  CRLF ++ "Content-Type: text/html" ++ CRLF ++ CRLF ++ "<p>second</p>" ++ CRLF.


(** A message that is not multipart and whose body mentions a boundary. *)
Definition boundaryInBody : string :=
  "Subject: question" ++ CRLF ++ CRLF ++ "what does boundary=abc mean?".

(** The multipart/alternative message of the specification. *)
Definition alternativeMessage : string :=
  "Content-Type: multipart/alternative; boundary=XYZ" ++ CRLF ++ CRLF
  ++ "--XYZ" ++ CRLF ++ "Content-Type: text/plain" ++ CRLF ++ CRLF
  ++ "hello" ++ CRLF
  ++ "--XYZ" ++ CRLF ++ "Content-Type: text/html" ++ CRLF ++ CRLF
  ++ "<b>hi</b>" ++ CRLF
  ++ "--XYZ--".

(** The single-part message of the specification. *)
Definition plainMessage : string :=
  "Content-Type: text/plain" ++ CRLF ++ CRLF ++ "hello world".

(** The same with white space around the body. *)
Definition paddedPlainMessage : string :=
  "Content-Type: text/plain" ++ CRLF ++ CRLF
  ++ "  hello world " ++ CRLF.

(** The attachment part of the specification and a message holding it. *)
Definition attachmentPart : string :=
  CRLF ++ "Content-Disposition: attachment; filename=" ++ QUOTE ++ "a.txt"
  ++ QUOTE ++ CRLF ++ "Content-Transfer-Encoding: base64" ++ CRLF ++ CRLF
  ++ "aGVsbG8=" ++ CRLF.

Definition attachmentMessage : string :=
  "Content-Type: multipart/mixed; boundary=XYZ" ++ CRLF ++ CRLF
  ++ "--XYZ" ++ attachmentPart ++ "--XYZ--".

(** An attachment part whose content is empty, and a message holding it. *)
Definition emptyAttachmentPart : string :=
  CRLF ++ "Content-Disposition: attachment; filename=" ++ QUOTE ++ "a.txt"
  ++ QUOTE ++ CRLF ++ CRLF ++ CRLF.

Definition emptyAttachmentMessage : string :=
  "Content-Type: multipart/mixed; boundary=XYZ" ++ CRLF ++ CRLF
  ++ "--XYZ" ++ emptyAttachmentPart ++ "--XYZ--".

End Inputs.

(* ================================================================== *)
(** * Helpers of the request handlers of [index.js] *)

Module Handlers.
Import Chars JsString Regex Mime.

(** An element of an envelope address list, [{ name, address }]; either
    field may be missing. *)
Record envelopeAddress : Type := mkAddress
  { name : option string; address : option string }.

(** Truthiness of a field: present and not empty. *)
Definition present (field : option string) : bool :=
  match field with Some s => truthy s | None => false end.

(** A field inside a template literal: a missing one prints as the text
    of [undefined]. *)
Definition interpolate (field : option string) : string :=
  match field with Some s => s | None => "undefined" end.

(** [a.address || e] with the empty string [e] *)
Definition addressOrEmpty (a : envelopeAddress) : string :=
  match address a with Some s => s | None => EmptyString end.

(** [a.name ? `${a.name} <${a.address}>` : a.address || e], the
    expression both functions apply to an element. *)
Definition formatAddress (a : envelopeAddress) : string :=
  if present (name a)
  then interpolate (name a) ++ " <" ++ interpolate (address a) ++ ">"
  else addressOrEmpty a.

(** [parseAddress]; [None] is a missing list. *)
Definition parseAddress (addr : option (list envelopeAddress)) : string :=
  match addr with
  | None | Some [] => EmptyString
  | Some (a :: _) => formatAddress a
  end.

(** [parseAddressList] *)
Definition parseAddressList (addr : option (list envelopeAddress)) : string :=
  match addr with
  | None | Some [] => EmptyString
  | Some l => String.concat ", " (map formatAddress l)
  end.

(** The class of the characters other than the greater-than sign. *)
Definition notGreater (c : ascii) : bool := negb (code c =? 62).

(** [/<[^>]+>/g] *)
Definition tagRe : regex :=
  Seq (Lit "<"%char) (Seq (Plus notGreater) (Lit ">"%char)).

(** [/\s+/g] *)
Definition spacesRe : regex := Plus isSpace.

Definition oneSpace (_ : list string) : string := " ".

(** The snippet of a resolved body, in the list handler:
    [b.replace(tags, space).replace(spaces, space).trim().substring(0, 200)]. *)
Definition snippetOfBody (b : string) : string :=
  substringTo 200
    (trim (replaceAll false spacesRe oneSpace
             (replaceAll false tagRe oneSpace b))).

(** The variable [snippet] of the list handler for one message; [source]
    is [msg.source] as text, [None] when the message has none. *)
Definition snippetOf (rt : string -> option string) (source : option string)
  : string :=
  match source with
  | None => EmptyString
  | Some raw =>
      match extractBodyFromSource rt raw with
      | Some b => snippetOfBody b
      | None => EmptyString
      end
  end.

End Handlers.

(* ================================================================== *)
(** * Definitions used to state further properties *)

Module Shape.
Import Chars JsString Regex Mime Spec.

(** [needle] occurs in [s]. *)
Definition occurs (needle s : string) : Prop :=
  exists a b, s = a ++ needle ++ b.

(** No character of [s] is white space. *)
Fixpoint spaceFree (s : string) : bool :=
  match s with
  | EmptyString => true
  | String c t => negb (isSpace c) && spaceFree t
  end.

(** Every white-space character of [s] is a plain space and no two of
    them are adjacent. *)
Fixpoint singleSpaced (s : string) : bool :=
  match s with
  | EmptyString => true
  | String c t =>
      (negb (isSpace c) || Ascii.eqb c " "%char)
      && match t with
         | String d _ => negb (isSpace c && isSpace d)
         | EmptyString => true
         end
      && singleSpaced t
  end.

(** [s] does not begin with white space. *)
Definition startsClean (s : string) : bool :=
  match s with
  | String c _ => negb (isSpace c)
  | EmptyString => true
  end.

(** The number of white-space characters [s] begins with. *)
Fixpoint spaceRun (s : string) : nat :=
  match s with
  | String c t => if isSpace c then S (spaceRun t) else 0
  | EmptyString => 0
  end.

(** Runs of white space replaced by one space; [inRun] tells that the
    previous character was white space. *)
Fixpoint collapse (inRun : bool) (s : string) : string :=
  match s with
  | EmptyString => EmptyString
  | String c t =>
      if isSpace c
      then if inRun then collapse true t else String " "%char (collapse true t)
      else String c (collapse false t)
  end.

(** A part that cannot replace an HTML candidate already found: anything
    but a leaf whose header block contains [text/html]. *)
Definition sparesHtml (part : string) : Prop :=
  match classifyPart part with
  | LeafPart h _ => includes "text/html" (toLowerCase h) = false
  | _ => True
  end.

(** A part that cannot replace a plain-text candidate already found. *)
Definition sparesText (part : string) : Prop :=
  match classifyPart part with
  | LeafPart h _ =>
      includes "text/html" (toLowerCase h) = true
      \/ includes "text/plain" (toLowerCase h) = false
  | _ => True
  end.

(** What every extracted attachment satisfies. *)
Definition wellFormed (a : attachment) : Prop :=
  base64 a <> EmptyString
  /\ spaceFree (base64 a) = true
  /\ size a = ceilDiv (String.length (base64 a) * 3) 4.

(** No character of [s] is an equals sign. *)
Fixpoint equalsFree (s : string) : bool :=
  match s with
  | EmptyString => true
  | String c t => negb (Ascii.eqb c "="%char) && equalsFree t
  end.

(** A longer message for the examples: a multipart/related part, with an
    image attached, nested in a multipart/mixed message. *)
Definition nestedPart : string :=
  CRLF ++ "Content-Type: multipart/related; boundary=IN" ++ CRLF ++ CRLF
  ++ "--IN" ++ CRLF ++ "Content-Type: text/html" ++ CRLF ++ CRLF
  ++ "<p>hi</p>" ++ CRLF
  ++ "--IN" ++ CRLF ++ "Content-Type: image/png" ++ CRLF
  ++ "Content-Disposition: attachment; filename=a.png" ++ CRLF
  ++ "Content-Transfer-Encoding: base64" ++ CRLF ++ CRLF
  ++ "iVBORw0=" ++ CRLF
  ++ "--IN--" ++ CRLF.

(** A message whose lines end in LF alone. *)
Definition bareLfMessage : string :=
  "Content-Type: text/plain" ++ String LF (String LF "hello").

End Shape.

(* ================================================================== *)
(** * The end of the list handler of [index.js] *)

Module Listing.

(** An element of [msgs].  [date] is the instant, in milliseconds, that
    the ISO text of the source stands for and that the comparator reads
    back with [new Date(m.date).getTime()]; [labelIds] is always empty. *)
Record summary : Type := mkSummary
  { id : string;
    threadId : string;
    snippet : string;
    from : string;
    subject : string;
    date : Z;
    isUnread : bool }.

(** [params.maxResults || 20] *)
Definition maxResultsOf (maxResults : option nat) : nat :=
  match maxResults with
  | Some (S n) => S n
  | _ => 20
  end.

(** [msgs.sort((a, b) => time(b.date) - time(a.date))]: the sort of the
    language is stable, and a stable sort has one result, which insertion
    from the right computes. *)
Fixpoint insertByDate (m : summary) (sorted : list summary) : list summary :=
  match sorted with
  | [] => [m]
  | x :: rest =>
      if (date x <=? date m)%Z then m :: sorted
      else x :: insertByDate m rest
  end.

Definition sortByDate (msgs : list summary) : list summary :=
  fold_right insertByDate [] msgs.

(** [msgs.slice(0, maxResults)] after the sort: the messages sent back. *)
Definition listed (maxResults : option nat) (msgs : list summary)
  : list summary :=
  firstn (maxResultsOf maxResults) (sortByDate msgs).

(** The messages left out of the answer. *)
Definition leftOut (maxResults : option nat) (msgs : list summary)
  : list summary :=
  skipn (maxResultsOf maxResults) (sortByDate msgs).

(** No message of [l] is later than [d]. *)
Definition notAfter (d : Z) (l : list summary) : bool :=
  forallb (fun m => (date m <=? d)%Z) l.

(** From the latest to the earliest. *)
Fixpoint latestFirst (l : list summary) : bool :=
  match l with
  | [] => true
  | x :: rest => notAfter (date x) rest && latestFirst rest
  end.

End Listing.

(* ================================================================== *)
(** * Facts about the string primitives *)

Module StringFacts.
Import Chars JsString.

Lemma prefix_length (a b : string) :
  String.prefix a b = true -> String.length a <= String.length b.
Proof.
  revert b; induction a as [|x a IH]; intros [|y b]; simpl; try lia.
  destruct (ascii_dec x y); [|discriminate].
  intros H; apply IH in H; lia.
Qed.

Lemma indexOf_cons (needle : string) (c : ascii) (t : string) :
  indexOf needle (String c t)
  = if String.prefix needle (String c t) then Some 0
    else option_map S (indexOf needle t).
Proof. reflexivity. Qed.

Lemma indexOf_bound (needle s : string) (i : nat) :
  indexOf needle s = Some i -> i + String.length needle <= String.length s.
Proof.
  revert i; induction s as [|c t IH]; intros i.
  - destruct needle; simpl; [|discriminate]. intros [= <-]. lia.
  - rewrite indexOf_cons. destruct (String.prefix needle (String c t)) eqn:E.
    + intros [= <-]. apply prefix_length in E. simpl in *; lia.
    + destruct (indexOf needle t) as [j|]; simpl; [|discriminate].
      intros [= <-]. specialize (IH j eq_refl). lia.
Qed.

Lemma length_drop (n : nat) (s : string) :
  String.length (drop n s) = String.length s - n.
Proof.
  revert s; induction n as [|n IH]; intros [|c t]; simpl; auto.
Qed.

Lemma splitFrom_cons (sep : string) (c : ascii) (t : string) :
  splitFrom sep (String c t) 0
  = if String.prefix sep (String c t)
    then EmptyString :: splitFrom sep t (String.length sep - 1)
    else match splitFrom sep t 0 with
         | p :: ps => String c p :: ps
         | [] => [String c EmptyString]
         end.
Proof. reflexivity. Qed.

Lemma splitFrom_length (sep s : string) (skip : nat) (p : string) :
  In p (splitFrom sep s skip) -> String.length p <= String.length s.
Proof.
  revert skip p; induction s as [|c t IH]; intros skip p.
  - simpl. intros [<-|[]]; simpl; lia.
  - destruct skip as [|k]; [rewrite splitFrom_cons|simpl].
    + destruct (String.prefix sep (String c t)).
      * intros [<-|H]; simpl; [lia|]. apply IH in H; lia.
      * destruct (splitFrom sep t 0) as [|q qs] eqn:E.
        -- intros [<-|[]]; simpl; lia.
        -- intros [<-|H]; simpl.
           ++ assert (String.length q <= String.length t)
                by (apply (IH 0); rewrite E; now left).
              lia.
           ++ assert (String.length p <= String.length t)
                by (apply (IH 0); rewrite E; now right).
              lia.
    + intros H; apply IH in H; lia.
Qed.

Lemma split_length (sep s p : string) :
  In p (split sep s) -> String.length p <= String.length s.
Proof. apply splitFrom_length. Qed.

(** The text handed to a recursive call is shorter than the part. *)
Lemma nested_shorter (part : string) (i : nat) :
  indexOf CRLFCRLF part = Some i ->
  String.length (substringFrom (i + 4) part) < String.length part.
Proof.
  intros H; apply indexOf_bound in H. unfold substringFrom.
  rewrite length_drop. simpl in H. lia.
Qed.

End StringFacts.

(* ================================================================== *)
(** * The walks terminate: the fuel of the top-level calls is enough *)

Module Termination.
Import Chars JsString Regex Mime Spec StringFacts.

Section Body.
Variable rt : string -> option string.

Lemma bodyStep_mono recur1 recur2 acc part r :
  below recur1 recur2 ->
  bodyStep rt recur1 acc part = Some r -> bodyStep rt recur2 acc part = Some r.
Proof.
  intros Hb. unfold bodyStep.
  destruct (startsWith "--" part || negb (truthy (trim part))); auto.
  destruct (indexOf CRLFCRLF part) as [i|]; auto.
  destruct (search true boundaryRe _); auto.
  destruct (recur1 _) as [v|] eqn:E; [|discriminate].
  now rewrite (Hb _ _ E).
Qed.

Lemma bodyLoop_mono recur1 recur2 parts acc r :
  below recur1 recur2 ->
  bodyLoop rt recur1 acc parts = Some r -> bodyLoop rt recur2 acc parts = Some r.
Proof.
  intros Hb. revert acc; induction parts as [|p ps IH]; intros acc; simpl; auto.
  destruct (bodyStep rt recur1 acc p) as [a|] eqn:E; [|discriminate].
  rewrite (bodyStep_mono _ _ _ _ _ Hb E). apply IH.
Qed.

Lemma extractBodyFuel_mono n : forall m raw v,
  n <= m -> extractBodyFuel rt n raw = Some v -> extractBodyFuel rt m raw = Some v.
Proof.
  induction n as [|n IH]; intros m raw v Hle; simpl; [discriminate|].
  destruct m as [|m]; [lia|]. simpl.
  destruct (search true boundaryRe raw); auto.
  destruct (bodyLoop rt (extractBodyFuel rt n) _ _) as [a|] eqn:E; [|discriminate].
  intros H.
  rewrite (bodyLoop_mono (extractBodyFuel rt n) (extractBodyFuel rt m) _ _ a); auto.
  intros x w Hx. apply (IH m); [lia|exact Hx].
Qed.

Lemma bodyStep_defined recur acc part :
  (forall x, String.length x < String.length part -> exists v, recur x = Some v) ->
  exists r, bodyStep rt recur acc part = Some r.
Proof.
  intros Hr. unfold bodyStep.
  destruct (startsWith "--" part || negb (truthy (trim part))); eauto.
  destruct (indexOf CRLFCRLF part) as [i|] eqn:Ei; eauto.
  destruct (search true boundaryRe _).
  - destruct (Hr _ (nested_shorter _ _ Ei)) as [v ->].
    destruct (truthy v); eauto.
    destruct (negb (truthy (htmlBody acc)) && includes "<" v); eauto.
    destruct (negb (truthy (textBody acc))); eauto.
  - destruct (includes "text/html" _); eauto.
    destruct (includes "text/plain" _); eauto.
Qed.

Lemma bodyLoop_defined recur parts : forall acc,
  (forall p x, In p parts -> String.length x < String.length p ->
               exists v, recur x = Some v) ->
  exists r, bodyLoop rt recur acc parts = Some r.
Proof.
  induction parts as [|p ps IH]; intros acc Hr; simpl; eauto.
  destruct (bodyStep_defined recur acc p) as [a ->].
  - intros x Hx. apply (Hr p); [now left|exact Hx].
  - apply IH. intros q x Hq. apply Hr. now right.
Qed.

Lemma extractBodyFuel_defined n : forall raw,
  String.length raw < n -> exists v, extractBodyFuel rt n raw = Some v.
Proof.
  induction n as [|n IH]; intros raw Hn; [lia|]. simpl.
  destruct (search true boundaryRe raw) as [m|]; eauto.
  destruct (bodyLoop_defined (extractBodyFuel rt n)
              (split ("--" ++ trim (group1 m)) raw)
              (mkBodies EmptyString EmptyString)) as [a ->]; simpl; eauto.
  intros p x Hp Hx. apply IH. apply split_length in Hp. lia.
Qed.

(** The result does not depend on the fuel once it exceeds the length. *)
Lemma extractBodyFuel_enough n raw :
  String.length raw < n ->
  extractBodyFuel rt n raw = extractBodyFromSource rt raw.
Proof.
  intros Hn. unfold extractBodyFromSource.
  destruct (extractBodyFuel_defined (S (String.length raw)) raw) as [v Hv]; [lia|].
  rewrite Hv. apply (extractBodyFuel_mono (S (String.length raw))); [lia|exact Hv].
Qed.

Lemma extractBodyFromSource_total raw :
  exists body, extractBodyFromSource rt raw = Some body.
Proof. apply extractBodyFuel_defined. lia. Qed.

End Body.

Lemma attachmentStep_mono recur1 recur2 acc part r :
  below recur1 recur2 ->
  attachmentStep recur1 acc part = Some r ->
  attachmentStep recur2 acc part = Some r.
Proof.
  intros Hb. unfold attachmentStep.
  destruct (startsWith "--" part || negb (truthy (trim part))); auto.
  destruct (indexOf CRLFCRLF part) as [i|]; auto.
  destruct (search true boundaryRe _); auto.
  destruct (recur1 _) as [v|] eqn:E; [|discriminate].
  now rewrite (Hb _ _ E).
Qed.

Lemma attachmentLoop_mono recur1 recur2 parts acc r :
  below recur1 recur2 ->
  attachmentLoop recur1 acc parts = Some r ->
  attachmentLoop recur2 acc parts = Some r.
Proof.
  intros Hb. revert acc; induction parts as [|p ps IH]; intros acc; simpl; auto.
  destruct (attachmentStep recur1 acc p) as [a|] eqn:E; [|discriminate].
  rewrite (attachmentStep_mono _ _ _ _ _ Hb E). apply IH.
Qed.

Lemma extractAttachmentsFuel_mono n : forall m raw v,
  n <= m -> extractAttachmentsFuel n raw = Some v ->
  extractAttachmentsFuel m raw = Some v.
Proof.
  induction n as [|n IH]; intros m raw v Hle; simpl; [discriminate|].
  destruct m as [|m]; [lia|]. simpl.
  destruct (search true boundaryRe raw); auto.
  apply attachmentLoop_mono. intros x w Hx. apply (IH m); [lia|exact Hx].
Qed.

Lemma attachmentStep_defined recur acc part :
  (forall x, String.length x < String.length part -> exists v, recur x = Some v) ->
  exists r, attachmentStep recur acc part = Some r.
Proof.
  intros Hr. unfold attachmentStep.
  destruct (startsWith "--" part || negb (truthy (trim part))); eauto.
  destruct (indexOf CRLFCRLF part) as [i|] eqn:Ei; eauto.
  destruct (search true boundaryRe _).
  - destruct (Hr _ (nested_shorter _ _ Ei)) as [v ->]. eauto.
  - destruct (isAttachment _ || isInlineWithFilename _); eauto.
    destruct (truthy _); eauto.
Qed.

Lemma attachmentLoop_defined recur parts : forall acc,
  (forall p x, In p parts -> String.length x < String.length p ->
               exists v, recur x = Some v) ->
  exists r, attachmentLoop recur acc parts = Some r.
Proof.
  induction parts as [|p ps IH]; intros acc Hr; simpl; eauto.
  destruct (attachmentStep_defined recur acc p) as [a ->].
  - intros x Hx. apply (Hr p); [now left|exact Hx].
  - apply IH. intros q x Hq. apply Hr. now right.
Qed.

Lemma extractAttachmentsFuel_defined n : forall raw,
  String.length raw < n -> exists v, extractAttachmentsFuel n raw = Some v.
Proof.
  induction n as [|n IH]; intros raw Hn; [lia|]. simpl.
  destruct (search true boundaryRe raw) as [m|]; eauto.
  apply attachmentLoop_defined.
  intros p x Hp Hx. apply IH. apply split_length in Hp. lia.
Qed.

Lemma extractAttachmentsFuel_enough n raw :
  String.length raw < n ->
  extractAttachmentsFuel n raw = extractAttachmentsFromSource raw.
Proof.
  intros Hn. unfold extractAttachmentsFromSource.
  destruct (extractAttachmentsFuel_defined (S (String.length raw)) raw)
    as [v Hv]; [lia|].
  rewrite Hv.
  apply (extractAttachmentsFuel_mono (S (String.length raw))); [lia|exact Hv].
Qed.

Lemma extractAttachmentsFromSource_total raw :
  exists found, extractAttachmentsFromSource raw = Some found.
Proof. apply extractAttachmentsFuel_defined. lia. Qed.

End Termination.

(* ================================================================== *)
(** * The patterns of [decodePart], read as scanners *)

Module DecoderFacts.
Import Chars JsString Regex Mime.

Lemma replaceAllFrom_here ic r f c t :
  replaceAllFrom ic r f (String c t) 0
  = match matchAt ic r (String c t) with
    | Some (O, caps) => f caps ++ String c (replaceAllFrom ic r f t 0)
    | Some (S n, caps) => f caps ++ replaceAllFrom ic r f t n
    | None => String c (replaceAllFrom ic r f t 0)
    end.
Proof. reflexivity. Qed.

(** [/\s/] at the head of a text. *)
Lemma matchAt_space c t :
  matchAt false spaceRe (String c t) = if isSpace c then Some (1, []) else None.
Proof. reflexivity. Qed.

Lemma stripWhitespace_filter s :
  stripWhitespace s = Spec.withoutWhitespace s.
Proof.
  unfold stripWhitespace, replaceAll.
  induction s as [|c t IH]; [reflexivity|].
  rewrite replaceAllFrom_here, matchAt_space. simpl.
  destruct (isSpace c); simpl; now rewrite IH.
Qed.

(** [/=\r?\n/] at the head of a text. *)
Lemma matchAt_softBreak c t :
  matchAt false softBreakRe (String c t)
  = if Ascii.eqb c "="%char then
      match t with
      | String c1 t1 =>
          if Ascii.eqb c1 LF then Some (2, [])
          else match t1 with
               | String c2 t2 =>
                   if Ascii.eqb c1 CR && Ascii.eqb c2 LF then Some (3, [])
                   else None
               | EmptyString => None
               end
      | EmptyString => None
      end
    else None.
Proof.
  unfold matchAt, softBreakRe. simpl.
  destruct (Ascii.eqb c "="%char); [|reflexivity].
  destruct t as [|c1 t1]; [reflexivity|].
  destruct (Ascii.eqb c1 CR) eqn:E1.
  - apply Ascii.eqb_eq in E1; subst c1.
    destruct t1 as [|c2 t2]; [reflexivity|].
    simpl. destruct (Ascii.eqb c2 LF); reflexivity.
  - simpl. destruct (Ascii.eqb c1 LF); [reflexivity|].
    destruct t1; reflexivity.
Qed.

Lemma softBreaks_scanner_upto n : forall s,
  String.length s <= n ->
  replaceAllFrom false softBreakRe noText s 0 = Spec.removeSoftBreaks s.
Proof.
  induction n as [|n IH]; intros [|c t] Hn; simpl in Hn; try lia; try reflexivity.
  rewrite replaceAllFrom_here, matchAt_softBreak.
  cbn [Spec.removeSoftBreaks].
  destruct (Ascii.eqb c "="%char).
  - destruct t as [|c1 t1].
    + reflexivity.
    + destruct (Ascii.eqb c1 LF).
      * cbn [replaceAllFrom noText append]. apply IH. simpl in *; lia.
      * destruct t1 as [|c2 t2].
        -- f_equal. apply IH. simpl in *; lia.
        -- destruct (Ascii.eqb c1 CR && Ascii.eqb c2 LF).
           ++ cbn [replaceAllFrom noText append]. apply IH. simpl in *; lia.
           ++ f_equal. apply IH. simpl in *; lia.
  - f_equal. apply IH. lia.
Qed.

Lemma softBreaks_scanner s :
  replaceAll false softBreakRe noText s = Spec.removeSoftBreaks s.
Proof. apply (softBreaks_scanner_upto (String.length s)). lia. Qed.

(** [/=([0-9A-Fa-f]{2})/] at the head of a text. *)
Lemma matchAt_hexEscape c t :
  matchAt false hexEscapeRe (String c t)
  = if Ascii.eqb c "="%char then
      match t with
      | String h1 (String h2 _) =>
          if isHex h1 && isHex h2
          then Some (3, [String h1 (String h2 EmptyString)])
          else None
      | _ => None
      end
    else None.
Proof.
  unfold matchAt, hexEscapeRe. simpl.
  destruct (Ascii.eqb c "="%char); [|reflexivity].
  destruct t as [|h1 [|h2 t2]]; simpl.
  - reflexivity.
  - destruct (isHex h1); reflexivity.
  - destruct (isHex h1); [|reflexivity]. destruct (isHex h2); reflexivity.
Qed.

Lemma hexEscapeValue_pair h1 h2 :
  isHex h1 = true -> isHex h2 = true ->
  hexEscapeValue [String h1 (String h2 EmptyString)]
  = String (ascii_of_nat (16 * hexVal h1 + hexVal h2)) EmptyString.
Proof.
  intros H1 H2. unfold hexEscapeValue, fromCharCode, parseHex, group1.
  simpl. rewrite H1, H2. do 2 f_equal.
Qed.

Lemma hexEscapes_scanner_upto n : forall s,
  String.length s <= n ->
  replaceAllFrom false hexEscapeRe hexEscapeValue s 0 = Spec.unescapeHex s.
Proof.
  induction n as [|n IH]; intros [|c t] Hn; simpl in Hn; try lia; try reflexivity.
  rewrite replaceAllFrom_here, matchAt_hexEscape.
  cbn [Spec.unescapeHex].
  destruct (Ascii.eqb c "="%char).
  - destruct t as [|h1 [|h2 t2]].
    + reflexivity.
    + f_equal. apply IH. simpl in *; lia.
    + destruct (isHex h1) eqn:E1; destruct (isHex h2) eqn:E2;
        cbn [andb]; try (f_equal; apply IH; simpl in *; lia).
      rewrite (hexEscapeValue_pair _ _ E1 E2).
      cbn [replaceAllFrom append]. f_equal. apply IH. simpl in *; lia.
  - f_equal. apply IH. lia.
Qed.

Lemma hexEscapes_scanner s :
  replaceAll false hexEscapeRe hexEscapeValue s = Spec.unescapeHex s.
Proof. apply (hexEscapes_scanner_upto (String.length s)). lia. Qed.

End DecoderFacts.

(* ================================================================== *)
(** * The walks, one level at a time *)

Module WalkFacts.
Import Chars JsString Regex Mime Spec StringFacts Termination DecoderFacts.

(** ** White space and the trailing dashes *)

Lemma withoutWhitespace_trimStart s :
  withoutWhitespace (trimStart s) = withoutWhitespace s.
Proof.
  induction s as [|c t IH]; [reflexivity|]. simpl.
  destruct (isSpace c) eqn:E; [exact IH|]. simpl. now rewrite E.
Qed.

Lemma withoutWhitespace_trimEnd s :
  withoutWhitespace (trimEnd s) = withoutWhitespace s.
Proof.
  induction s as [|c t IH]; [reflexivity|]. simpl.
  destruct (trimEnd t) as [|x r].
  - simpl in IH. destruct (isSpace c) eqn:E; simpl; rewrite ?E; now rewrite <- IH.
  - change (withoutWhitespace (String c (String x r)))
      with (if isSpace c then withoutWhitespace (String x r)
            else String c (withoutWhitespace (String x r))).
    now rewrite IH.
Qed.

Lemma withoutWhitespace_trim s :
  withoutWhitespace (trim s) = withoutWhitespace s.
Proof.
  unfold trim. now rewrite withoutWhitespace_trimEnd, withoutWhitespace_trimStart.
Qed.

Lemma replaceFirst_here ic r f s :
  replaceFirst ic r f s
  = match matchAt ic r s with
    | Some (n, caps) => f caps ++ drop n s
    | None =>
        match s with
        | EmptyString => EmptyString
        | String c t => String c (replaceFirst ic r f t)
        end
    end.
Proof. destruct s; reflexivity. Qed.

(** [/--$/] at the head of a text. *)
Lemma matchAt_trailingDashes s :
  matchAt false trailingDashesRe s
  = if String.eqb s "--" then Some (2, []) else None.
Proof.
  destruct s as [|a [|b [|c t]]]; try reflexivity.
  - unfold matchAt, trailingDashesRe. simpl. destruct (Ascii.eqb a "-"); reflexivity.
  - unfold matchAt, trailingDashesRe. simpl.
    destruct (Ascii.eqb a "-"); [|reflexivity].
    destruct (Ascii.eqb b "-"); reflexivity.
  - unfold matchAt, trailingDashesRe. simpl.
    destruct (Ascii.eqb a "-"); [|reflexivity].
    destruct (Ascii.eqb b "-"); reflexivity.
Qed.

Lemma replaceFirst_without_dashes s :
  endsWithDashes s = false ->
  replaceFirst false trailingDashesRe noText s = s.
Proof.
  induction s as [|c t IH]; intros H.
  - reflexivity.
  - rewrite replaceFirst_here, matchAt_trailingDashes.
    cbn [endsWithDashes] in H. apply orb_false_iff in H as [H1 H2].
    rewrite H1. f_equal. now apply IH.
Qed.

(** ** The steps of the two loops, by the kind of the part *)

Lemma bodyStep_classify rt recur acc part :
  bodyStep rt recur acc part
  = match classifyPart part with
    | Skipped => Some acc
    | NestedPart body =>
        match recur body with
        | None => None
        | Some nested =>
            if truthy nested then
              if negb (truthy (htmlBody acc)) && includes "<" nested
              then Some (mkBodies nested (textBody acc))
              else if negb (truthy (textBody acc))
                   then Some (mkBodies (htmlBody acc) nested)
                   else Some acc
            else Some acc
        end
    | LeafPart h c =>
        if includes "text/html" (toLowerCase h)
        then Some (mkBodies (leafDecoded rt h c) (textBody acc))
        else if includes "text/plain" (toLowerCase h)
             then Some (mkBodies (htmlBody acc) (leafDecoded rt h c))
             else Some acc
    end.
Proof.
  unfold bodyStep, classifyPart.
  destruct (startsWith "--" part || negb (truthy (trim part))); [reflexivity|].
  destruct (indexOf CRLFCRLF part) as [i|]; [|reflexivity].
  destruct (search true boundaryRe _); reflexivity.
Qed.

Lemma attachmentStep_classify recur attachments part :
  attachmentStep recur attachments part
  = match classifyPart part with
    | Skipped => Some attachments
    | NestedPart body =>
        match recur body with
        | None => None
        | Some nested => Some (attachments ++ nested)%list
        end
    | LeafPart h c =>
        if isAttachment (toLowerCase h) || isInlineWithFilename (toLowerCase h)
        then
          let base64Data := base64DataOf (encodingOf (toLowerCase h)) c in
          if truthy base64Data then
            Some (attachments ++
                  [mkAttachment (filenameOf h) (mimeTypeOf h)
                     (ceilDiv (String.length base64Data * 3) 4) base64Data])%list
          else Some attachments
        else Some attachments
    end.
Proof.
  unfold attachmentStep, classifyPart.
  destruct (startsWith "--" part || negb (truthy (trim part))); [reflexivity|].
  destruct (indexOf CRLFCRLF part) as [i|]; [|reflexivity].
  destruct (search true boundaryRe _); reflexivity.
Qed.

(** A leaf is a part with a blank line; its header block is what
    precedes it and its content what follows, cleaned. *)
Lemma classifyPart_leaf part h c :
  classifyPart part = LeafPart h c ->
  exists i, indexOf CRLFCRLF part = Some i
            /\ h = substringTo i part /\ c = partContentOf i part.
Proof.
  unfold classifyPart.
  destruct (startsWith "--" part || negb (truthy (trim part))); [discriminate|].
  destruct (indexOf CRLFCRLF part) as [i|]; [|discriminate].
  destruct (search true boundaryRe _); [discriminate|].
  intros [= <- <-]. now exists i.
Qed.

Lemma classifyPart_nested part body :
  classifyPart part = NestedPart body ->
  String.length body < String.length part.
Proof.
  unfold classifyPart.
  destruct (startsWith "--" part || negb (truthy (trim part))); [discriminate|].
  destruct (indexOf CRLFCRLF part) as [i|] eqn:E; [|discriminate].
  destruct (search true boundaryRe _); [|discriminate].
  intros [= <-]. now apply nested_shorter.
Qed.

(** ** The recursion, without fuel *)

Section Unfold.
Variable rt : string -> option string.

Lemma bodyLoop_agree recur1 recur2 parts : forall acc,
  (forall p x, In p parts -> String.length x < String.length p ->
               recur1 x = recur2 x) ->
  bodyLoop rt recur1 acc parts = bodyLoop rt recur2 acc parts.
Proof.
  induction parts as [|p ps IH]; intros acc H; [reflexivity|]. simpl.
  assert (E : bodyStep rt recur1 acc p = bodyStep rt recur2 acc p).
  { rewrite !bodyStep_classify.
    destruct (classifyPart p) as [|body|h c] eqn:Ep; try reflexivity.
    rewrite (H p body); [reflexivity|now left|now apply classifyPart_nested]. }
  rewrite E. destruct (bodyStep rt recur2 acc p); [|reflexivity].
  apply IH. intros q x Hq. apply H. now right.
Qed.

Lemma extractBodyFromSource_unfold raw :
  extractBodyFromSource rt raw
  = match partsOf raw with
    | None => Some (singleEntityBody rt raw)
    | Some parts =>
        option_map resolveBody
          (bodyLoop rt (extractBodyFromSource rt)
                    (mkBodies EmptyString EmptyString) parts)
    end.
Proof.
  unfold extractBodyFromSource at 1, partsOf. cbn [extractBodyFuel].
  destruct (search true boundaryRe raw) as [m|]; [|reflexivity].
  f_equal. apply bodyLoop_agree.
  intros p x Hp Hx. apply extractBodyFuel_enough.
  apply split_length in Hp. lia.
Qed.

End Unfold.

Lemma attachmentLoop_agree recur1 recur2 parts : forall acc,
  (forall p x, In p parts -> String.length x < String.length p ->
               recur1 x = recur2 x) ->
  attachmentLoop recur1 acc parts = attachmentLoop recur2 acc parts.
Proof.
  induction parts as [|p ps IH]; intros acc H; [reflexivity|]. simpl.
  assert (E : attachmentStep recur1 acc p = attachmentStep recur2 acc p).
  { rewrite !attachmentStep_classify.
    destruct (classifyPart p) as [|body|h c] eqn:Ep; try reflexivity.
    rewrite (H p body); [reflexivity|now left|now apply classifyPart_nested]. }
  rewrite E. destruct (attachmentStep recur2 acc p); [|reflexivity].
  apply IH. intros q x Hq. apply H. now right.
Qed.

Lemma extractAttachmentsFromSource_unfold raw :
  extractAttachmentsFromSource raw
  = match partsOf raw with
    | None => Some []
    | Some parts => attachmentLoop extractAttachmentsFromSource [] parts
    end.
Proof.
  unfold extractAttachmentsFromSource at 1, partsOf. cbn [extractAttachmentsFuel].
  destruct (search true boundaryRe raw) as [m|]; [|reflexivity].
  apply attachmentLoop_agree.
  intros p x Hp Hx. apply extractAttachmentsFuel_enough.
  apply split_length in Hp. lia.
Qed.

(** ** A source without a boundary token *)

Lemma no_token_single_entity rt raw :
  hasBoundaryToken raw = false ->
  extractBodyFromSource rt raw = Some (singleEntityBody rt raw)
  /\ extractAttachmentsFromSource raw = Some [].
Proof.
  unfold hasBoundaryToken, extractBodyFromSource, extractAttachmentsFromSource.
  cbn [extractBodyFuel extractAttachmentsFuel].
  destruct (search true boundaryRe raw); [discriminate|].
  intros _. split; reflexivity.
Qed.

(** A text that does not contain [boundary=] in any letter case has no
    boundary token. *)
Lemma run_lits_prefix {R : Type} w : forall s pos caps
    (k : string -> nat -> list string -> option R) x,
  run true (lits w) s pos caps k = Some x ->
  String.prefix (toLowerCase w) (toLowerCase s) = true.
Proof.
  induction w as [|c t IH]; intros s pos caps k x; simpl.
  - destruct (toLowerCase s); reflexivity.
  - destruct s as [|a s']; [discriminate|]. simpl. unfold sameChar.
    destruct (Ascii.eqb (toLower a) (toLower c)) eqn:E; [|discriminate].
    apply Ascii.eqb_eq in E. rewrite E.
    destruct (ascii_dec (toLower c) (toLower c)); [|contradiction].
    apply IH.
Qed.

Lemma no_boundary_text s :
  includes "boundary=" (toLowerCase s) = false -> hasBoundaryToken s = false.
Proof.
  unfold includes, hasBoundaryToken.
  induction s as [|c t IH].
  - intros _. reflexivity.
  - cbn [toLowerCase]. rewrite indexOf_cons.
    destruct (String.prefix "boundary=" (String (toLower c) (toLowerCase t)))
      eqn:Ep; [discriminate|].
    intros H. cbn [search].
    destruct (matchAt true boundaryRe (String c t)) as [[n caps]|] eqn:Em.
    + unfold matchAt, boundaryRe in Em. cbn [run] in Em.
      apply run_lits_prefix in Em.
      change (toLowerCase "boundary=") with "boundary=" in Em.
      cbn [toLowerCase] in Em. congruence.
    + apply IH. destruct (indexOf "boundary=" (toLowerCase t)); [discriminate|reflexivity].
Qed.

(** ** Leaves overwrite: the last one of a kind is the one kept *)

Section LastLeaf.
Variable rt : string -> option string.
Variable recur : string -> option string.






End LastLeaf.

End WalkFacts.

(* ================================================================== *)
(** * The transporter cache: what every reachable state satisfies *)

Module CacheFacts.
Import Smtp.

Lemma getTransporter_outcome smtpHost smtpPort smtpUser smtpPass nowCheck nowStore w :
  outcome w (cacheKeyOf smtpHost smtpPort smtpUser)
          (optionsOf smtpHost smtpPort smtpUser smtpPass) nowCheck nowStore
          (getTransporter smtpHost smtpPort smtpUser smtpPass nowCheck nowStore w).
Proof.
  unfold getTransporter.
  destruct (transporterCache w !! cacheKeyOf smtpHost smtpPort smtpUser)
    as [cached|] eqn:E.
  - destruct (Z.ltb_spec (nowCheck - created cached) TRANSPORTER_TTL).
    + now apply Hit.
    + unfold installNew, createTransport, cacheSet, cacheDelete, close. simpl.
      rewrite <- !app_assoc. simpl. now apply Expired.
  - unfold installNew, createTransport, cacheSet. simpl.
    rewrite <- !app_assoc. simpl. now apply Miss.
Qed.

Lemma live_other l ev key t :
  isCreation ev = false -> live (l ++ [ev]) key t -> live l key t.
Proof.
  intros Hev [Hc Hn]. split.
  - apply in_app_or in Hc as [Hc|[->|[]]]; [exact Hc|discriminate Hev].
  - intros Hx. apply Hn, in_or_app. now left.
Qed.

Lemma atMostOneLive_other l ev :
  isCreation ev = false -> atMostOneLive l -> atMostOneLive (l ++ [ev]).
Proof.
  intros Hev H key t1 t2 H1 H2.
  apply (H key); now apply (live_other l ev).
Qed.

Lemma noLive_other l ev key :
  isCreation ev = false -> noLive l key -> noLive (l ++ [ev]) key.
Proof. intros Hev H t Ht. apply (H t). now apply (live_other l ev). Qed.

Lemma live_created l key t key' t' :
  live (l ++ [Created key t]) key' t' ->
  live l key' t' \/ (key' = key /\ t' = t).
Proof.
  intros [Hc Hn]. apply in_app_or in Hc as [Hc|[[= <- <-]|[]]]; [left|now right].
  split; [exact Hc|]. intros Hx. apply Hn, in_or_app. now left.
Qed.

Lemma atMostOneLive_created l key t :
  noLive l key -> atMostOneLive l -> atMostOneLive (l ++ [Created key t]).
Proof.
  intros Hno H k t1 t2 H1 H2.
  apply live_created in H1 as [H1|[-> ->]]; apply live_created in H2 as [H2|[E2 ->]].
  - now apply (H k).
  - subst k. now destruct (Hno t1).
  - now destruct (Hno t2).
  - reflexivity.
Qed.

Lemma invariant_initial : invariant initial.
Proof.
  split; simpl.
  - intros key e H. now rewrite lookup_empty in H.
  - intros key t [].
  - intros key t [[] _].
  - intros t [].
  - intros key1 key2 t [].
  - intros pre suf H. symmetry in H. apply app_eq_nil in H as [-> _].
    intros key t1 t2 [[] _].
Qed.

(** Every prefix of an extended trace is a prefix of the old trace or the
    old trace followed by a prefix of the extension. *)
Lemma prefix_of_extension (l es pre suf : list event) :
  (l ++ es = pre ++ suf)%list ->
  (exists mid, l = pre ++ mid)%list
  \/ (exists es1 es2, pre = l ++ es1 /\ es = es1 ++ es2)%list.
Proof.
  intros H. apply app_eq_app in H as [m [[H1 H2]|[H1 H2]]].
  - left. now exists m.
  - right. now exists m, suf.
Qed.

Lemma atMostOneLive_whole w : invariant w -> atMostOneLive (trace w).
Proof.
  intros I. apply (instants w I (trace w) []). now rewrite app_nil_r.
Qed.

Lemma noLive_uncached w key :
  invariant w -> transporterCache w !! key = None -> noLive (trace w) key.
Proof.
  intros I Hk t Ht. destruct (live_cached w I key t Ht) as (e & He & _).
  congruence.
Qed.

Lemma noLive_closed w key e :
  invariant w -> transporterCache w !! key = Some e ->
  noLive (trace w ++ [Closed (cachedTransporter e)]) key.
Proof.
  intros I Hk t Ht.
  assert (Hl : live (trace w) key t)
    by exact (live_other _ (Closed (cachedTransporter e)) _ _ eq_refl Ht).
  destruct (live_cached w I key t Hl) as (e' & He' & <-).
  rewrite Hk in He'. injection He' as <-.
  destruct Ht as [_ Hn]. apply Hn, in_or_app. right. now left.
Qed.

Lemma new_not_closed w opts :
  invariant w -> ~ In (Closed (mkTransporter (allocated w) opts)) (trace w).
Proof.
  intros I Hc. destruct (closed_created w I _ Hc) as [key Hk].
  apply (created_known w I) in Hk. simpl in Hk. lia.
Qed.

Lemma new_not_created w opts key :
  invariant w -> ~ In (Created key (mkTransporter (allocated w) opts)) (trace w).
Proof.
  intros I Hc. apply (created_known w I) in Hc. simpl in Hc. lia.
Qed.

Lemma cached_not_new w key e opts :
  invariant w -> transporterCache w !! key = Some e ->
  cachedTransporter e <> mkTransporter (allocated w) opts.
Proof.
  intros I Hk E. destruct (cached_live w I key e Hk) as [Hc _].
  rewrite E in Hc. now apply new_not_created in Hc.
Qed.

Ltac in_trace :=
  repeat match goal with
         | H : In _ (_ ++ _) |- _ => apply in_app_or in H as [H|H]
         | H : In _ (_ :: _) |- _ => destruct H as [H|H]
         | H : In _ [] |- _ => destruct H
         | H : Closed _ = Closed _ |- _ => injection H as H
         | H : Created _ _ = Created _ _ |- _ => injection H as H
         | H : _ = _ |- _ => discriminate H
         end.

Ltac fresh_absurd I :=
  exfalso;
  match goal with
  | H : In (Created _ _) _ |- _ => exact (new_not_created _ _ _ I H)
  end.

Lemma invariant_miss w key opts nowStore :
  invariant w -> transporterCache w !! key = None ->
  let t := mkTransporter (allocated w) opts in
  invariant (mkWorld (<[key := mkEntry t nowStore]> (transporterCache w))
                     (S (allocated w))
                     (trace w ++ [Created key t; Installed key t])).
Proof.
  intros I Hk t. split; simpl.
  - intros k e He. destruct (decide (key = k)) as [<-|Hne].
    + rewrite lookup_insert_eq in He. injection He as <-. simpl. split.
      * apply in_or_app. right. now left.
      * intros Hc. in_trace. now apply (new_not_closed w opts I).
    + rewrite lookup_insert_ne in He by exact Hne.
      destruct (cached_live w I k e He) as [Hc Hn]. split.
      * apply in_or_app. now left.
      * intros Hx. in_trace. now apply Hn.
  - intros k t' Hc. in_trace.
    + apply (created_known w I) in Hc. lia.
    + subst t'. simpl. lia.
  - intros k t' [Hc Hn]. in_trace.
    + assert (Hl : live (trace w) k t').
      { split; [exact Hc|]. intros Hx. apply Hn, in_or_app. now left. }
      destruct (live_cached w I k t' Hl) as (e & He & <-).
      exists e. split; [|reflexivity].
      rewrite lookup_insert_ne; [exact He|]. intros <-. congruence.
    + subst k t'. eexists. rewrite lookup_insert_eq. split; reflexivity.
  - intros t' Hc. in_trace.
    destruct (closed_created w I t' Hc) as [k Hk']. exists k.
    apply in_or_app. now left.
  - intros k1 k2 t' H1 H2. in_trace; subst;
      [now apply (created_once w I k1 k2 t')|fresh_absurd I..|reflexivity].
  - intros pre suf H. apply prefix_of_extension in H as [[mid H]|(es1 & es2 & -> & H)].
    + now apply (instants w I pre mid).
    + pose proof (atMostOneLive_whole w I) as H0.
      pose proof (noLive_uncached w key I Hk) as N0.
      pose proof (atMostOneLive_created _ key t N0 H0) as H1.
      pose proof (atMostOneLive_other _ (Installed key t) eq_refl H1) as H2.
      rewrite <- app_assoc in H2.
      destruct es1 as [|e1 [|e2 [|e3 es1]]]; simpl in H.
      * now rewrite app_nil_r.
      * injection H as <- _. exact H1.
      * injection H as <- <- _. exact H2.
      * discriminate H.
Qed.

Lemma invariant_expired w key cached opts nowStore :
  invariant w -> transporterCache w !! key = Some cached ->
  let t := mkTransporter (allocated w) opts in
  invariant (mkWorld (<[key := mkEntry t nowStore]> (delete key (transporterCache w)))
                     (S (allocated w))
                     (trace w ++ [Closed (cachedTransporter cached); Evicted key;
                                  Created key t; Installed key t])).
Proof.
  intros I Hk t. split; simpl.
  - intros k e He. destruct (decide (key = k)) as [<-|Hne].
    + rewrite lookup_insert_eq in He. injection He as <-. simpl. split.
      * apply in_or_app. right. right. right. now left.
      * intros Hc. in_trace.
        -- now apply (new_not_closed w opts I).
        -- now apply (cached_not_new w key cached opts I Hk).
    + rewrite lookup_insert_ne, lookup_delete_ne in He by exact Hne.
      destruct (cached_live w I k e He) as [Hc Hn]. split.
      * apply in_or_app. now left.
      * intros Hx. in_trace; [now apply Hn|].
        destruct (cached_live w I key cached Hk) as [Hc' _].
        rewrite Hx in Hc'. now apply Hne, (created_once w I key k _ Hc' Hc).
  - intros k t' Hc. in_trace.
    + apply (created_known w I) in Hc. lia.
    + subst t'. simpl. lia.
  - intros k t' [Hc Hn]. in_trace.
    + assert (Hl : live (trace w) k t').
      { split; [exact Hc|]. intros Hx. apply Hn, in_or_app. now left. }
      destruct (live_cached w I k t' Hl) as (e & He & <-).
      destruct (decide (key = k)) as [<-|Hne].
      * rewrite Hk in He. injection He as <-.
        destruct Hn. apply in_or_app. right. now left.
      * exists e. split; [|reflexivity].
        now rewrite lookup_insert_ne, lookup_delete_ne.
    + subst k t'. eexists. rewrite lookup_insert_eq. split; reflexivity.
  - intros t' Hc. in_trace.
    + destruct (closed_created w I t' Hc) as [k Hk']. exists k.
      apply in_or_app. now left.
    + subst t'. exists key. apply in_or_app. left.
      now destruct (cached_live w I key cached Hk).
  - intros k1 k2 t' H1 H2. in_trace; subst;
      [now apply (created_once w I k1 k2 t')|fresh_absurd I..|reflexivity].
  - intros pre suf H. apply prefix_of_extension in H as [[mid H]|(es1 & es2 & -> & H)].
    + now apply (instants w I pre mid).
    + pose proof (atMostOneLive_whole w I) as H0.
      pose proof (atMostOneLive_other _ (Closed (cachedTransporter cached)) eq_refl H0) as H1.
      pose proof (noLive_closed w key cached I Hk) as N1.
      pose proof (atMostOneLive_other _ (Evicted key) eq_refl H1) as H2.
      pose proof (noLive_other _ (Evicted key) key eq_refl N1) as N2.
      pose proof (atMostOneLive_created _ key t N2 H2) as H3.
      pose proof (atMostOneLive_other _ (Installed key t) eq_refl H3) as H4.
      repeat rewrite <- app_assoc in H2. repeat rewrite <- app_assoc in H3.
      repeat rewrite <- app_assoc in H4. simpl in H2, H3, H4.
      destruct es1 as [|e1 [|e2 [|e3 [|e4 [|e5 es1]]]]]; simpl in H.
      * now rewrite app_nil_r.
      * injection H as <- _. exact H1.
      * injection H as <- <- _. exact H2.
      * injection H as <- <- <- _. exact H3.
      * injection H as <- <- <- <- _. exact H4.
      * discriminate H.
Qed.

Lemma invariant_call w smtpHost smtpPort smtpUser smtpPass nowCheck nowStore :
  invariant w ->
  invariant (snd (getTransporter smtpHost smtpPort smtpUser smtpPass
                                 nowCheck nowStore w)).
Proof.
  intros I.
  destruct (getTransporter_outcome smtpHost smtpPort smtpUser smtpPass
              nowCheck nowStore w); simpl.
  - exact I.
  - now apply invariant_expired.
  - now apply invariant_miss.
Qed.

Lemma reachable_invariant w : reachable w -> invariant w.
Proof.
  induction 1; [apply invariant_initial|now apply invariant_call].
Qed.

(** A call leaves the entries of the other keys as they are. *)
Lemma getTransporter_other_key smtpHost smtpPort smtpUser smtpPass
      nowCheck nowStore w key :
  key <> cacheKeyOf smtpHost smtpPort smtpUser ->
  transporterCache (snd (getTransporter smtpHost smtpPort smtpUser smtpPass
                                        nowCheck nowStore w)) !! key
  = transporterCache w !! key.
Proof.
  intros Hne.
  destruct (getTransporter_outcome smtpHost smtpPort smtpUser smtpPass
              nowCheck nowStore w); simpl.
  - reflexivity.
  - rewrite lookup_insert_ne, lookup_delete_ne; auto.
  - rewrite lookup_insert_ne; auto.
Qed.

Lemma closeCount_app l1 l2 t :
  closeCount (l1 ++ l2) t = closeCount l1 t + closeCount l2 t.
Proof. apply count_occ_app. Qed.

Lemma closeCount_unclosed l t : ~ In (Closed t) l -> closeCount l t = 0.
Proof. apply count_occ_not_In. Qed.

End CacheFacts.

(* ================================================================== *)
(** * Properties of the transfer-encoding decoder *)

Import Chars JsString Regex Mime Spec Inputs.
Import StringFacts Termination DecoderFacts.

Lemma toLowerCase_truthy s : truthy (toLowerCase s) = truthy s.
Proof. destruct s; reflexivity. Qed.

(** Two spellings of an encoding name that differ only in letter case
    decode alike. *)
Lemma decodePart_ignores_case rt content e1 e2 :
  toLowerCase e1 = toLowerCase e2 ->
  decodePart rt content e1 = decodePart rt content e2.
Proof.
  intros H. unfold decodePart.
  rewrite <- (toLowerCase_truthy e1), <- (toLowerCase_truthy e2), H.
  reflexivity.
Qed.

(** The ways in which [decodePart] returns the content itself: an absent
    (empty) encoding, an encoding that is neither base64 nor
    quoted-printable once lower-cased and trimmed, and, with base64, an
    exception thrown by the runtime decoder (the [catch] of the source). *)
Lemma decodePart_falls_back_to_content
      (rt : string -> option string) (content encoding : string) :
  truthy encoding = false
  \/ (trim (toLowerCase encoding) <> "base64"
      /\ trim (toLowerCase encoding) <> "quoted-printable")
  \/ (trim (toLowerCase encoding) = "base64"
      /\ rt (stripWhitespace content) = None) ->
  decodePart rt content encoding = content.
Proof.
  unfold decodePart. intros [H|[[H1 H2]|[H1 H2]]].
  - now rewrite H.
  - destruct (truthy encoding); [|reflexivity]. cbn [negb].
    apply String.eqb_neq in H1, H2. now rewrite H1, H2.
  - destruct (truthy encoding); [|reflexivity]. cbn [negb].
    rewrite H1, H2. reflexivity.
Qed.

(** C3, a defect of the code.  With the encoding base64 [decodePart]
    returns whatever the runtime decoder gives for the content without
    its white space; the content comes back unchanged only from the
    [catch], that is, when that decoder throws.  The decoder of the
    runtime does not throw: it skips what is no base64 digit.  A
    malformed content is therefore decoded, not kept: the content [!!!!]
    gives the empty string.  The rest of C3 holds: the function
    returns a string in every case, the content itself when the encoding
    is absent or not recognised. *)
Theorem C3_malformed_base64_is_decoded
        (rt : string -> option string) (content encoding decoded : string) :
  truthy encoding = true ->
  trim (toLowerCase encoding) = "base64" ->
  rt (stripWhitespace content) = Some decoded ->
  decodePart rt content encoding = decoded.
Proof.
  intros H1 H2 H3. unfold decodePart.
  rewrite H1. cbn [negb]. rewrite H2, H3. reflexivity.
Qed.

Lemma C3_failing_input :
  decodePart lenientBase64 "!!!!" "base64" = EmptyString
  /\ decodePart lenientBase64 "!aGVs!bG8" " Base64 " = "hello".
Proof.
  split.
  - apply (C3_malformed_base64_is_decoded lenientBase64 "!!!!" "base64"
             EmptyString); vm_compute; reflexivity.
  - apply (C3_malformed_base64_is_decoded lenientBase64 "!aGVs!bG8" " Base64 "
             "hello"); vm_compute; reflexivity.
Defined.

(** C4. With the encoding quoted-printable, [decodePart] first removes
    every soft line break and then replaces every two-digit hexadecimal
    escape by the character of that code, each in one pass from left to
    right; the two examples of the specification evaluate as given. *)
Theorem C4_quoted_printable (rt : string -> option string) (content : string) :
  decodePart rt content "quoted-printable"
  = unescapeHex (removeSoftBreaks content)
  /\ decodePart rt ("abc=" ++ CRLF ++ "def") "quoted-printable" = "abcdef"
  /\ decodePart rt "caf=C3=A9" "quoted-printable"
     = "caf" ++ String (ascii_of_nat 195) (String (ascii_of_nat 169) EmptyString).
Proof.
  split; [|split; reflexivity].
  change (decodePart rt content "quoted-printable")
    with (replaceAll false hexEscapeRe hexEscapeValue
            (replaceAll false softBreakRe noText content)).
  now rewrite softBreaks_scanner, hexEscapes_scanner.
Qed.

(** C5. The encoding name is compared without regard to letter case:
    decoding with BASE64 and with base64 gives the same result for every
    content. *)
Theorem C5_base64_name_case (rt : string -> option string) (content : string) :
  decodePart rt content "BASE64" = decodePart rt content "base64".
Proof. apply decodePart_ignores_case. reflexivity. Qed.

(** C6. Body resolution of the multipart/alternative message of the
    specification returns its HTML part. *)
Theorem C6_alternative_message_body (rt : string -> option string) :
  extractBodyFromSource rt alternativeMessage = Some "<b>hi</b>".
Proof. vm_compute. reflexivity. Qed.

(* ================================================================== *)
(** * Properties of the body selector and of the boundary test *)

Import WalkFacts.

(** The result of [extractBodyFromSource] on two sibling HTML leaves. *)
Example twoHtmlParts_body :
  extractBodyFromSource strictBase64 twoHtmlParts = Some "<p>second</p>".
Proof. vm_compute. reflexivity. Qed.




(** C2, as the specification words it, fails: a boundary token in the
    body alone makes the source multipart. *)
Lemma C2_body_text_decides_too : ~ headerDecidesMultipart.
Proof.
  intros H. destruct (H strictBase64 boundaryInBody) as [E _].
  - vm_compute; reflexivity.
  - vm_compute in E. discriminate E.
Qed.

(** C2, a defect of the code.  Both walks look for the boundary token in
    the whole text they are given, while the same test on a part of a
    multipart reads the header block of the part only.  Take a source
    whose header block has no boundary token and names no text type, and
    whose body mentions a boundary that delimits nothing.  The source is
    split as a multipart with itself as its only part; that part is a
    leaf, since its header block has no token, and is of no text type, so
    body resolution returns the empty string where the reading as one
    entity gives the text of the message. *)
Theorem C2_boundary_in_body_empties_the_message
        (rt : string -> option string) (raw h c : string) :
  hasBoundaryToken (headerText raw) = false ->
  partsOf raw = Some [raw] ->
  classifyPart raw = LeafPart h c ->
  includes "text/html" (toLowerCase h) = false ->
  includes "text/plain" (toLowerCase h) = false ->
  extractBodyFromSource rt raw = Some EmptyString
  /\ (singleEntityBody rt raw <> EmptyString ->
      extractBodyFromSource rt raw <> Some (singleEntityBody rt raw)).
Proof.
  intros _ Hparts Hclass Hhtml Hplain.
  assert (E : extractBodyFromSource rt raw = Some EmptyString).
  { rewrite extractBodyFromSource_unfold, Hparts. cbn [bodyLoop].
    rewrite bodyStep_classify, Hclass, Hhtml, Hplain. reflexivity. }
  split; [exact E|].
  intros Hne. rewrite E. intros [= Heq]. now apply Hne.
Qed.

Lemma C2_failing_input :
  hasBoundaryToken (headerText boundaryInBody) = false
  /\ singleEntityBody lenientBase64 boundaryInBody
     = "what does boundary=abc mean?"
  /\ extractBodyFromSource lenientBase64 boundaryInBody = Some EmptyString.
Proof.
  split; [vm_compute; reflexivity|].
  split; [vm_compute; reflexivity|].
  apply (C2_boundary_in_body_empties_the_message lenientBase64 boundaryInBody
           "Subject: question" "what does boundary=abc mean?");
    vm_compute; reflexivity.
Defined.

(** C7. Body resolution of the single-part message of the specification
    returns its text and attachment extraction returns the empty list;
    on this path, taken when no boundary token occurs, the decoded body
    is trimmed of the white space around it. *)
Theorem C7_plain_message (rt : string -> option string) :
  extractBodyFromSource rt plainMessage = Some "hello world"
  /\ extractAttachmentsFromSource plainMessage = Some []
  /\ extractBodyFromSource rt paddedPlainMessage = Some "hello world"
  /\ (forall raw bodyStart,
         hasBoundaryToken raw = false ->
         indexOf CRLFCRLF raw = Some bodyStart ->
         extractBodyFromSource rt raw
         = Some (trim (decodePart rt (substringFrom (bodyStart + 4) raw)
                         (group1OrEmpty
                            (search true encodingRe
                               (toLowerCase (substringTo bodyStart raw))))))).
Proof.
  split; [vm_compute; reflexivity|].
  split; [vm_compute; reflexivity|].
  split; [vm_compute; reflexivity|].
  intros raw bodyStart Hb Hi.
  destruct (no_token_single_entity rt raw Hb) as [E _].
  rewrite E. unfold singleEntityBody. now rewrite Hi.
Qed.

Lemma C7_witness :
  extractBodyFromSource strictBase64 paddedPlainMessage
  = Some (trim ("  hello world " ++ CRLF)).
Proof.
  destruct (C7_plain_message strictBase64) as (_ & _ & _ & H).
  apply (H paddedPlainMessage 24); vm_compute; reflexivity.
Defined.

(* ================================================================== *)
(** * Properties of the attachment collector *)

Lemma base64DataOf_base64 c :
  base64DataOf "base64" c = withoutWhitespace c.
Proof. unfold base64DataOf. simpl. apply stripWhitespace_filter. Qed.

Lemma partContent_without_dashes i part :
  endsWithDashes (substringFrom (i + 4) part) = false ->
  withoutWhitespace (partContentOf i part)
  = withoutWhitespace (substringFrom (i + 4) part).
Proof.
  intros H. unfold partContentOf.
  now rewrite withoutWhitespace_trim, replaceFirst_without_dashes.
Qed.

(** C8. For every leaf part classified as an attachment whose transfer
    encoding is base64, the payload is the content of the part with its
    white space removed, character for character (nothing is decoded or
    encoded again), and the declared size is the ceiling of three fourths
    of the payload's length; unless the text after the blank line ends in
    two dashes, that content is this text itself.  The part of the
    specification yields one attachment named a.txt with payload aGVsbG8=
    and size 6. *)
Theorem C8_base64_attachment_payload
        (recur : string -> option (list attachment))
        (attachments : list attachment) (part h c : string) :
  classifyPart part = LeafPart h c ->
  isAttachment (toLowerCase h) || isInlineWithFilename (toLowerCase h) = true ->
  encodingOf (toLowerCase h) = "base64" ->
  attachmentStep recur attachments part
  = Some (if truthy (withoutWhitespace c)
          then (attachments ++
                [mkAttachment (filenameOf h) (mimeTypeOf h)
                   (ceilDiv (String.length (withoutWhitespace c) * 3) 4)
                   (withoutWhitespace c)])%list
          else attachments)
  /\ (forall i, indexOf CRLFCRLF part = Some i ->
                endsWithDashes (substringFrom (i + 4) part) = false ->
                withoutWhitespace c
                = withoutWhitespace (substringFrom (i + 4) part))
  /\ attachmentStep recur [] attachmentPart
     = Some [mkAttachment "a.txt" "application/octet-stream" 6 "aGVsbG8="]
  /\ extractAttachmentsFromSource attachmentMessage
     = Some [mkAttachment "a.txt" "application/octet-stream" 6 "aGVsbG8="].
Proof.
  intros Hc Ha He. split; [|split; [|split]].
  - rewrite attachmentStep_classify, Hc, Ha, He. cbv zeta.
    rewrite base64DataOf_base64. destruct (truthy (withoutWhitespace c)); reflexivity.
  - intros i Hi Hd. destruct (classifyPart_leaf _ _ _ Hc) as (j & Hj & _ & ->).
    rewrite Hi in Hj. injection Hj as <-. now apply partContent_without_dashes.
  - rewrite attachmentStep_classify. vm_compute. reflexivity.
  - vm_compute. reflexivity.
Qed.

Lemma C8_witness :
  attachmentStep (fun _ => None) [] attachmentPart
  = Some [mkAttachment "a.txt" "application/octet-stream"
            (ceilDiv (8 * 3) 4) "aGVsbG8="].
Proof.
  refine (proj1 (C8_base64_attachment_payload (fun _ => None) [] attachmentPart
                   (CRLF ++ "Content-Disposition: attachment; filename=" ++ QUOTE
                      ++ "a.txt" ++ QUOTE ++ CRLF
                      ++ "Content-Transfer-Encoding: base64")
                   "aGVsbG8=" _ _ _)); vm_compute; reflexivity.
Defined.

Lemma toBase64_empty s : toBase64 s = EmptyString -> s = EmptyString.
Proof. destruct s as [|a [|b [|c t]]]; simpl; congruence. Qed.

(** C10. A leaf part classified as an attachment whose base64 text comes
    out empty adds nothing to the list; this is so for every part with an
    empty content, whatever its encoding, and a non-base64 part only
    comes out empty that way. *)
Theorem C10_empty_payload_omitted
        (recur : string -> option (list attachment))
        (attachments : list attachment) (part h c : string) :
  classifyPart part = LeafPart h c ->
  isAttachment (toLowerCase h) || isInlineWithFilename (toLowerCase h) = true ->
  base64DataOf (encodingOf (toLowerCase h)) c = EmptyString ->
  attachmentStep recur attachments part = Some attachments
  /\ (forall encoding, base64DataOf encoding EmptyString = EmptyString)
  /\ (encodingOf (toLowerCase h) <> "base64" -> c = EmptyString)
  /\ extractAttachmentsFromSource emptyAttachmentMessage = Some [].
Proof.
  intros Hc Ha Hd. split; [|split; [|split]].
  - rewrite attachmentStep_classify, Hc, Ha. cbv zeta. now rewrite Hd.
  - intros encoding. unfold base64DataOf.
    destruct (String.eqb encoding "base64"); reflexivity.
  - intros Hn. unfold base64DataOf in Hd. apply String.eqb_neq in Hn.
    rewrite Hn in Hd. now apply toBase64_empty.
  - vm_compute. reflexivity.
Qed.

Lemma C10_witness :
  attachmentStep (fun _ => None) [] emptyAttachmentPart = Some [].
Proof.
  refine (proj1 (C10_empty_payload_omitted (fun _ => None) [] emptyAttachmentPart
                   (CRLF ++ "Content-Disposition: attachment; filename=" ++ QUOTE
                      ++ "a.txt" ++ QUOTE)
                   EmptyString _ _ _)); vm_compute; reflexivity.
Defined.

(* ================================================================== *)
(** * Properties of the transporter cache *)

Import Smtp CacheFacts.

(** C9. In every reachable state, of two calls with the same host, port
    and user, the first leaves an entry holding the transporter it
    returns; a second call made less than [TRANSPORTER_TTL] after the
    creation of that entry returns the same transporter and changes
    nothing; a second call made later returns another transporter, after
    closing the previous one, evicting it, and only then creating and
    installing the new one, and the previous one has then been closed
    exactly once; and at every instant of the run at most one transporter
    made for a key is not closed. *)
Theorem C9_transporter_cache
        (w : world) (smtpHost : string) (smtpPort : option nat)
        (smtpUser pass1 pass2 : string) (check1 store1 check2 store2 : Z)
        (h1 h2 : transporter) (w1 w2 : world) :
  reachable w ->
  getTransporter smtpHost smtpPort smtpUser pass1 check1 store1 w = (h1, w1) ->
  getTransporter smtpHost smtpPort smtpUser pass2 check2 store2 w1 = (h2, w2) ->
  let key := cacheKeyOf smtpHost smtpPort smtpUser in
  exists e,
    transporterCache w1 !! key = Some e
    /\ cachedTransporter e = h1
    /\ ((check2 - created e < TRANSPORTER_TTL)%Z -> h2 = h1 /\ w2 = w1)
    /\ ((TRANSPORTER_TTL <= check2 - created e)%Z ->
        h2 <> h1
        /\ trace w2 = (trace w1 ++ [Closed h1; Evicted key;
                                    Created key h2; Installed key h2])%list
        /\ closeCount (trace w2) h1 = 1
        /\ transporterCache w2 !! key = Some (mkEntry h2 store2))
    /\ (forall pre suf, trace w2 = (pre ++ suf)%list -> atMostOneLive pre).
Proof.
  intros Hr E1 E2 key.
  pose proof (reachable_invariant w Hr) as I.
  pose proof (invariant_call w smtpHost smtpPort smtpUser pass1 check1 store1 I) as I1.
  rewrite E1 in I1. simpl in I1.
  pose proof (invariant_call w1 smtpHost smtpPort smtpUser pass2 check2 store2 I1) as I2.
  rewrite E2 in I2. simpl in I2.
  assert (He : exists e, transporterCache w1 !! key = Some e
                         /\ cachedTransporter e = h1).
  { pose proof (getTransporter_outcome smtpHost smtpPort smtpUser pass1
                  check1 store1 w) as O.
    rewrite E1 in O. fold key in O.
    inversion O; subst; simpl; eauto;
      eexists; (split; [apply lookup_insert_eq|reflexivity]). }
  destruct He as (e & He & Hh). exists e. split; [exact He|]. split; [exact Hh|].
  pose proof (getTransporter_outcome smtpHost smtpPort smtpUser pass2
                check2 store2 w1) as O.
  rewrite E2 in O. fold key in O.
  split; [|split].
  - intros Hfresh. inversion O as [c Hc Hf|c Hc Hf|Hc]; subst.
    + rewrite He in Hc. injection Hc as <-. now split.
    + rewrite He in Hc. injection Hc as <-. lia.
    + congruence.
  - intros Hstale. inversion O as [c Hc Hf|c Hc Hf|Hc]; subst.
    + rewrite He in Hc. injection Hc as <-. lia.
    + rewrite He in Hc. injection Hc as <-. simpl. repeat split.
      * intros E. symmetry in E. revert E. now apply (cached_not_new w1 key e).
      * rewrite closeCount_app, closeCount_unclosed.
        -- unfold closeCount. rewrite count_occ_cons_eq by reflexivity.
           rewrite !count_occ_cons_neq by discriminate. reflexivity.
        -- now destruct (cached_live w1 I1 key e He).
      * apply lookup_insert_eq.
    + congruence.
  - exact (instants w2 I2).
Qed.

Lemma C9_witness :
  let call1 := getTransporter "smtp.example.org" (Some 465) "user" "secret"
                              1000 1000 initial in
  let call2 := getTransporter "smtp.example.org" (Some 465) "user" "secret"
                              61000 61000 (snd call1) in
  let call3 := getTransporter "smtp.example.org" (Some 465) "user" "secret"
                              301000 301000 (snd call2) in
  (fst call2 = fst call1 /\ snd call2 = snd call1)
  /\ fst call3 <> fst call2
  /\ closeCount (trace (snd call3)) (fst call2) = 1.
Proof.
  intros call1 call2 call3. split.
  - destruct (C9_transporter_cache initial "smtp.example.org" (Some 465)
                "user" "secret" "secret" 1000 1000 61000 61000
                (fst call1) (fst call2) (snd call1) (snd call2))
      as (e & He & _ & Hfresh & _).
    + constructor.
    + apply surjective_pairing.
    + apply surjective_pairing.
    + apply Hfresh. vm_compute in He. injection He as <-. reflexivity.
  - destruct (C9_transporter_cache (snd call1) "smtp.example.org" (Some 465)
                "user" "secret" "secret" 61000 61000 301000 301000
                (fst call2) (fst call3) (snd call2) (snd call3))
      as (e & He & _ & _ & Hstale & _).
    + constructor. constructor.
    + apply surjective_pairing.
    + apply surjective_pairing.
    + destruct Hstale as (Hne & _ & Hcount & _).
      * vm_compute in He. injection He as <-. vm_compute. discriminate.
      * split; [exact Hne|exact Hcount].
Defined.

(* ================================================================== *)
(** * Further facts about the string primitives *)

Module MoreStringFacts.
Import Chars JsString Regex Mime Spec Shape StringFacts.

Lemma prefix_append n b : String.prefix n (n ++ b) = true.
Proof.
  induction n as [|c n IH]; simpl.
  - destruct b; reflexivity.
  - destruct (ascii_dec c c); [exact IH|contradiction].
Qed.

Lemma prefix_split n s : String.prefix n s = true -> exists b, s = n ++ b.
Proof.
  revert s; induction n as [|c n IH]; intros s H.
  - now exists s.
  - destruct s as [|d s]; [discriminate|]. simpl in H.
    destruct (ascii_dec c d) as [<-|]; [|discriminate].
    destruct (IH s H) as [b ->]. now exists b.
Qed.

Lemma indexOf_nil needle :
  indexOf needle EmptyString
  = if String.prefix needle EmptyString then Some 0 else None.
Proof. reflexivity. Qed.

Lemma indexOf_here needle s :
  indexOf needle s
  = if String.prefix needle s then Some 0
    else match s with
         | EmptyString => None
         | String _ t => option_map S (indexOf needle t)
         end.
Proof. destruct s; reflexivity. Qed.

Lemma indexOf_occurs needle s i : indexOf needle s = Some i -> occurs needle s.
Proof.
  revert i; induction s as [|c t IH]; intros i.
  - rewrite indexOf_nil.
    destruct (String.prefix needle EmptyString) eqn:E; [|discriminate].
    intros _. apply prefix_split in E as [b E]. now exists EmptyString, b.
  - rewrite indexOf_cons.
    destruct (String.prefix needle (String c t)) eqn:E.
    + intros _. apply prefix_split in E as [b E]. now exists EmptyString, b.
    + destruct (indexOf needle t) as [j|]; [|discriminate].
      intros _. destruct (IH j eq_refl) as (a & b & ->).
      now exists (String c a), b.
Qed.

Lemma occurs_indexOf needle s : occurs needle s -> indexOf needle s <> None.
Proof.
  intros (a & b & ->). induction a as [|c a IH].
  - change (EmptyString ++ needle ++ b) with (needle ++ b).
    rewrite indexOf_here, prefix_append. discriminate.
  - change (String c a ++ needle ++ b) with (String c (a ++ needle ++ b)).
    rewrite indexOf_cons.
    destruct (String.prefix needle _); [discriminate|].
    destruct (indexOf needle (a ++ needle ++ b)); [discriminate|contradiction].
Qed.

Lemma append_cons c (a b : string) : String c a ++ b = String c (a ++ b).
Proof. reflexivity. Qed.

Lemma append_assoc (a b c : string) : (a ++ b) ++ c = a ++ b ++ c.
Proof.
  induction a as [|x a IH]; [reflexivity|]. now rewrite !append_cons, IH.
Qed.

Lemma occurs_inside needle a p b : occurs needle p -> occurs needle (a ++ p ++ b).
Proof.
  intros (x & y & ->). exists (a ++ x), (y ++ b).
  now rewrite !append_assoc.
Qed.

(** The first piece of a split is a prefix of the text. *)
Lemma splitFrom_head sep s :
  exists q qs b, splitFrom sep s 0 = q :: qs /\ s = q ++ b.
Proof.
  induction s as [|c t (q & qs & b & E & Ht)].
  - now exists EmptyString, [], EmptyString.
  - rewrite splitFrom_cons. destruct (String.prefix sep (String c t)).
    + now exists EmptyString, (splitFrom sep t (String.length sep - 1)), (String c t).
    + rewrite E. exists (String c q), qs, b. split; [reflexivity|].
      now rewrite append_cons, <- Ht.
Qed.

(** Every piece of a split is a stretch of the text. *)
Lemma splitFrom_piece sep s : forall skip p,
  In p (splitFrom sep s skip) -> exists a b, s = a ++ p ++ b.
Proof.
  induction s as [|c t IH]; intros skip p.
  - simpl. intros [<-|[]]. now exists EmptyString, EmptyString.
  - destruct skip as [|k]; [rewrite splitFrom_cons|simpl].
    + destruct (String.prefix sep (String c t)).
      * intros [<-|H].
        -- now exists EmptyString, (String c t).
        -- destruct (IH _ _ H) as (a & b & ->). now exists (String c a), b.
      * destruct (splitFrom_head sep t) as (q & qs & b & E & Ht).
        rewrite E. intros [<-|H].
        -- exists EmptyString, b.
           change (EmptyString ++ String c q ++ b) with (String c (q ++ b)).
           now rewrite <- Ht.
        -- destruct (IH 0 p) as (a & b' & ->); [rewrite E; now right|].
           now exists (String c a), b'.
    + intros H. destruct (IH _ _ H) as (a & b & ->). now exists (String c a), b.
Qed.

Lemma split_keeps_absent needle sep s p :
  indexOf needle s = None -> In p (split sep s) -> indexOf needle p = None.
Proof.
  intros Hs Hp. destruct (indexOf needle p) as [i|] eqn:E; [|reflexivity].
  apply indexOf_occurs in E. apply splitFrom_piece in Hp as (a & b & ->).
  now destruct (occurs_indexOf needle _ (occurs_inside needle a p b E)).
Qed.

Lemma length_append (a b : string) :
  String.length (a ++ b) = String.length a + String.length b.
Proof.
  induction a as [|x a IH]; [reflexivity|]. rewrite append_cons. simpl. now rewrite IH.
Qed.

Lemma length_take n s : String.length (take n s) <= n.
Proof.
  revert s; induction n as [|n IH]; intros [|c t]; simpl; try lia.
  specialize (IH t). lia.
Qed.

(** ** Trimming *)

Lemma startsClean_trimStart s : startsClean (trimStart s) = true.
Proof.
  induction s as [|c t IH]; [reflexivity|]. simpl.
  destruct (isSpace c) eqn:E; [exact IH|]. simpl. now rewrite E.
Qed.

Lemma trimStart_clean s : startsClean s = true -> trimStart s = s.
Proof.
  destruct s as [|c t]; [reflexivity|]. simpl. intros H.
  apply negb_true_iff in H. now rewrite H.
Qed.

Lemma startsClean_trimEnd s : startsClean s = true -> startsClean (trimEnd s) = true.
Proof.
  destruct s as [|c t]; [reflexivity|]. simpl. intros H.
  destruct (trimEnd t); [|exact H].
  apply negb_true_iff in H. rewrite H. simpl. now rewrite H.
Qed.

Lemma trimEnd_trimEnd s : trimEnd (trimEnd s) = trimEnd s.
Proof.
  induction s as [|c t IH]; [reflexivity|]. simpl.
  destruct (trimEnd t) as [|x r] eqn:E.
  - destruct (isSpace c) eqn:Ec; [reflexivity|]. simpl. now rewrite Ec.
  - change (trimEnd (String c (String x r)))
      with (match trimEnd (String x r) with
            | EmptyString => if isSpace c then EmptyString else String c EmptyString
            | String y r' => String c (String y r')
            end).
    now rewrite IH.
Qed.

Lemma trim_trim s : trim (trim s) = trim s.
Proof.
  unfold trim. rewrite (trimStart_clean (trimEnd (trimStart s))).
  - apply trimEnd_trimEnd.
  - apply startsClean_trimEnd, startsClean_trimStart.
Qed.

Lemma startsClean_trim s : startsClean (trim s) = true.
Proof. apply startsClean_trimEnd, startsClean_trimStart. Qed.

End MoreStringFacts.

(* ================================================================== *)
(** * Further facts about the two walks *)

Module MoreWalkFacts.
Import Chars JsString Regex Mime Spec Shape.
Import StringFacts Termination DecoderFacts WalkFacts MoreStringFacts.

(** ** Parts without a blank line *)

Lemma classifyPart_no_blank_line part :
  indexOf CRLFCRLF part = None -> classifyPart part = Skipped.
Proof.
  intros H. unfold classifyPart. rewrite H.
  destruct (startsWith "--" part || negb (truthy (trim part))); reflexivity.
Qed.

Lemma bodyLoop_all_skipped rt recur parts : forall acc,
  (forall p, In p parts -> classifyPart p = Skipped) ->
  bodyLoop rt recur acc parts = Some acc.
Proof.
  induction parts as [|p ps IH]; intros acc H; [reflexivity|]. simpl.
  rewrite bodyStep_classify, (H p) by now left.
  apply IH. intros q Hq. apply H. now right.
Qed.

Lemma attachmentLoop_all_skipped recur parts : forall acc,
  (forall p, In p parts -> classifyPart p = Skipped) ->
  attachmentLoop recur acc parts = Some acc.
Proof.
  induction parts as [|p ps IH]; intros acc H; [reflexivity|]. simpl.
  rewrite attachmentStep_classify, (H p) by now left.
  apply IH. intros q Hq. apply H. now right.
Qed.

Lemma partsOf_pieces raw parts p :
  partsOf raw = Some parts -> In p parts -> exists sep, In p (split sep raw).
Proof.
  unfold partsOf. destruct (search true boundaryRe raw) as [m|]; [|discriminate].
  intros [= <-] H. eauto.
Qed.

(** ** The base64 text of a binary string *)

Lemma base64Digit_notSpace n : isSpace (base64Digit n) = false.
Proof.
  unfold base64Digit, base64Alphabet.
  do 64 (destruct n as [|n]; [reflexivity|]). reflexivity.
Qed.

Lemma toBase64_shape_upto n : forall s,
  String.length s <= n ->
  String.length (toBase64 s) = 4 * ((String.length s + 2) / 3)
  /\ spaceFree (toBase64 s) = true.
Proof.
  induction n as [|n IH]; intros s Hn.
  - destruct s; [now split|simpl in Hn; lia].
  - destruct s as [|a [|b [|c t]]]; try (split; [reflexivity|]).
    + reflexivity.
    + cbn [toBase64 spaceFree]. now rewrite !base64Digit_notSpace.
    + cbn [toBase64 spaceFree]. now rewrite !base64Digit_notSpace.
    + destruct (IH t) as [Hl Hs]; [simpl in Hn; lia|]. split.
      * cbn [toBase64 String.length]. rewrite Hl.
        replace (S (S (S (String.length t))) + 2)
          with (String.length t + 2 + 1 * 3) by lia.
        rewrite Nat.div_add by lia. lia.
      * cbn [toBase64 spaceFree]. now rewrite !base64Digit_notSpace, Hs.
Qed.

Lemma toBase64_length s :
  String.length (toBase64 s) = 4 * ((String.length s + 2) / 3).
Proof. now apply (toBase64_shape_upto (String.length s)). Qed.

Lemma toBase64_spaceFree s : spaceFree (toBase64 s) = true.
Proof. now apply (toBase64_shape_upto (String.length s)). Qed.

Lemma withoutWhitespace_spaceFree s : spaceFree (withoutWhitespace s) = true.
Proof.
  induction s as [|c t IH]; [reflexivity|]. simpl.
  destruct (isSpace c) eqn:E; [exact IH|]. simpl. now rewrite E, IH.
Qed.

Lemma base64DataOf_spaceFree encoding c :
  spaceFree (base64DataOf encoding c) = true.
Proof.
  unfold base64DataOf. destruct (String.eqb encoding "base64").
  - rewrite stripWhitespace_filter. apply withoutWhitespace_spaceFree.
  - apply toBase64_spaceFree.
Qed.

Lemma ceilDiv_quarters k : ceilDiv (4 * k * 3) 4 = 3 * k.
Proof.
  unfold ceilDiv. replace (4 * k * 3) with (3 * k * 4) by lia.
  rewrite Nat.div_mul by lia. rewrite Nat.Div0.mod_mul. simpl. lia.
Qed.

Lemma thirds_bound n : n <= 3 * ((n + 2) / 3) <= n + 2.
Proof.
  pose proof (Nat.div_mod_eq (n + 2) 3) as E.
  pose proof (Nat.mod_upper_bound (n + 2) 3) as B. lia.
Qed.

(** ** What the attachment walk keeps *)

Lemma truthy_nonempty s : truthy s = true -> s <> EmptyString.
Proof. destruct s; [discriminate|discriminate]. Qed.

Lemma attachmentStep_wellFormed recur acc part r :
  (forall x v, recur x = Some v -> Forall wellFormed v) ->
  Forall wellFormed acc ->
  attachmentStep recur acc part = Some r -> Forall wellFormed r.
Proof.
  intros Hr Hacc. rewrite attachmentStep_classify.
  destruct (classifyPart part) as [|body|h c].
  - now intros [= <-].
  - destruct (recur body) as [v|] eqn:E; [|discriminate].
    intros [= <-]. apply Forall_app. split; [exact Hacc|exact (Hr _ _ E)].
  - destruct (isAttachment _ || isInlineWithFilename _); [|now intros [= <-]].
    cbv zeta. destruct (truthy (base64DataOf _ c)) eqn:E; [|now intros [= <-]].
    intros [= <-]. apply Forall_app. split; [exact Hacc|].
    constructor; [|constructor]. repeat split; simpl.
    + now apply truthy_nonempty.
    + apply base64DataOf_spaceFree.
Qed.

Lemma attachmentLoop_wellFormed recur parts : forall acc r,
  (forall x v, recur x = Some v -> Forall wellFormed v) ->
  Forall wellFormed acc ->
  attachmentLoop recur acc parts = Some r -> Forall wellFormed r.
Proof.
  induction parts as [|p ps IH]; intros acc r Hr Hacc; simpl.
  - now intros [= <-].
  - destruct (attachmentStep recur acc p) as [a|] eqn:E; [|discriminate].
    apply IH; [exact Hr|]. exact (attachmentStep_wellFormed _ _ _ _ Hr Hacc E).
Qed.

Lemma extractAttachmentsFuel_wellFormed n : forall raw v,
  extractAttachmentsFuel n raw = Some v -> Forall wellFormed v.
Proof.
  induction n as [|n IH]; intros raw v; simpl; [discriminate|].
  destruct (search true boundaryRe raw).
  - apply attachmentLoop_wellFormed; [exact IH|constructor].
  - intros [= <-]. constructor.
Qed.

(** ** The attachment loop only appends *)

Lemma attachmentStep_appends recur acc part :
  attachmentStep recur acc part
  = option_map (app acc) (attachmentStep recur [] part).
Proof.
  rewrite !attachmentStep_classify.
  destruct (classifyPart part) as [|body|h c]; simpl.
  - now rewrite app_nil_r.
  - destruct (recur body); reflexivity.
  - destruct (isAttachment _ || isInlineWithFilename _); simpl;
      [|now rewrite app_nil_r].
    destruct (truthy _); simpl; [reflexivity|now rewrite app_nil_r].
Qed.

Lemma attachmentLoop_appends recur parts : forall acc,
  attachmentLoop recur acc parts
  = option_map (app acc) (attachmentLoop recur [] parts).
Proof.
  induction parts as [|p ps IH]; intros acc; simpl.
  - now rewrite app_nil_r.
  - rewrite (attachmentStep_appends recur acc p).
    destruct (attachmentStep recur [] p) as [d|]; simpl; [|reflexivity].
    rewrite (IH (acc ++ d)%list), (IH d).
    destruct (attachmentLoop recur [] ps); simpl; [|reflexivity].
    now rewrite app_assoc.
Qed.

Lemma attachmentLoop_app recur ps1 ps2 : forall acc,
  attachmentLoop recur acc (ps1 ++ ps2)
  = match attachmentLoop recur acc ps1 with
    | Some mid => attachmentLoop recur mid ps2
    | None => None
    end.
Proof.
  induction ps1 as [|p ps IH]; intros acc; [reflexivity|]. simpl.
  destruct (attachmentStep recur acc p); [apply IH|reflexivity].
Qed.

(** ** Candidates already found *)

Section Found.
Variable rt : string -> option string.
Variable recur : string -> option string.

Lemma bodyLoop_sparesHtml parts : forall acc acc',
  Forall sparesHtml parts -> truthy (htmlBody acc) = true ->
  bodyLoop rt recur acc parts = Some acc' -> htmlBody acc' = htmlBody acc.
Proof.
  induction parts as [|p ps IH]; intros acc acc' H Ht; simpl.
  - now intros [= <-].
  - inversion H as [|? ? Hp Hps]; subst.
    rewrite bodyStep_classify. unfold sparesHtml in Hp.
    destruct (classifyPart p) as [|body|h c].
    + now apply IH.
    + destruct (recur body) as [nested|]; [|discriminate].
      rewrite Ht. cbn [negb andb].
      destruct (truthy nested); [|now apply IH].
      destruct (negb (truthy (textBody acc))); [|now apply IH].
      intros E. exact (IH (mkBodies _ _) _ Hps Ht E).
    + rewrite Hp. destruct (includes "text/plain" (toLowerCase h)).
      * intros E. exact (IH (mkBodies _ _) _ Hps Ht E).
      * now apply IH.
Qed.

Lemma bodyLoop_sparesText parts : forall acc acc',
  Forall sparesText parts -> truthy (textBody acc) = true ->
  bodyLoop rt recur acc parts = Some acc' -> textBody acc' = textBody acc.
Proof.
  induction parts as [|p ps IH]; intros acc acc' H Ht; simpl.
  - now intros [= <-].
  - inversion H as [|? ? Hp Hps]; subst.
    rewrite bodyStep_classify. unfold sparesText in Hp.
    destruct (classifyPart p) as [|body|h c].
    + now apply IH.
    + destruct (recur body) as [nested|]; [|discriminate].
      rewrite Ht. cbn [negb].
      destruct (truthy nested); [|now apply IH].
      destruct (negb (truthy (htmlBody acc)) && includes "<" nested);
        [|now apply IH].
      intros E. exact (IH (mkBodies _ _) _ Hps Ht E).
    + destruct (includes "text/html" (toLowerCase h)).
      * intros E. exact (IH (mkBodies _ _) _ Hps Ht E).
      * destruct Hp as [Hp|Hp]; [discriminate|]. rewrite Hp. now apply IH.
Qed.

End Found.

End MoreWalkFacts.

(* ================================================================== *)
(** * Further facts about the decoder and the handlers *)

Module MoreDecoderFacts.
Import Chars JsString Regex Mime Spec Shape Handlers.
Import StringFacts DecoderFacts MoreStringFacts.

(** ** Quoted-printable text *)

Lemma removeSoftBreaks_equalsFree s :
  equalsFree s = true -> removeSoftBreaks s = s.
Proof.
  induction s as [|c t IH]; [reflexivity|]. cbn [equalsFree removeSoftBreaks].
  intros H. apply andb_true_iff in H as [Hc Ht].
  apply negb_true_iff in Hc. rewrite Hc. now rewrite IH.
Qed.

Lemma unescapeHex_equalsFree s :
  equalsFree s = true -> unescapeHex s = s.
Proof.
  induction s as [|c t IH]; [reflexivity|]. cbn [equalsFree unescapeHex].
  intros H. apply andb_true_iff in H as [Hc Ht].
  apply negb_true_iff in Hc. rewrite Hc. now rewrite IH.
Qed.

Lemma removeSoftBreaks_length_upto n : forall s,
  String.length s <= n ->
  String.length (removeSoftBreaks s) <= String.length s.
Proof.
  induction n as [|n IH]; intros [|c t] Hn; simpl in Hn; try lia;
    try (simpl; lia).
  cbn [removeSoftBreaks].
  assert (Ht : String.length (removeSoftBreaks t) <= String.length t)
    by (apply IH; lia).
  destruct (Ascii.eqb c "="%char); [|simpl; lia].
  destruct t as [|c1 t1]; [simpl; lia|].
  destruct (Ascii.eqb c1 LF).
  - specialize (IH t1). simpl in *. lia.
  - destruct t1 as [|c2 t2]; [simpl in *; lia|].
    destruct (Ascii.eqb c1 CR && Ascii.eqb c2 LF).
    + specialize (IH t2). simpl in *. lia.
    + simpl in *. lia.
Qed.

Lemma unescapeHex_length_upto n : forall s,
  String.length s <= n ->
  String.length (unescapeHex s) <= String.length s.
Proof.
  induction n as [|n IH]; intros [|c t] Hn; simpl in Hn; try lia;
    try (simpl; lia).
  cbn [unescapeHex].
  assert (Ht : String.length (unescapeHex t) <= String.length t)
    by (apply IH; lia).
  destruct (Ascii.eqb c "="%char); [|simpl; lia].
  destruct t as [|h1 [|h2 t2]]; try (simpl in *; lia).
  destruct (isHex h1 && isHex h2); [|simpl in *; lia].
  specialize (IH t2). simpl in *. lia.
Qed.

(** ** Runs of white space *)

Lemma star_spaces s : forall pos caps,
  star isSpace s pos (fun _ n => Some (n, caps))
  = Some (pos + spaceRun s, caps : list string).
Proof.
  induction s as [|c t IH]; intros pos caps; simpl.
  - f_equal. f_equal. lia.
  - destruct (isSpace c).
    + rewrite IH. f_equal. f_equal. lia.
    + f_equal. f_equal. lia.
Qed.

Lemma matchAt_spaces c t :
  matchAt false spacesRe (String c t)
  = if isSpace c then Some (S (spaceRun t), []) else None.
Proof.
  unfold matchAt, spacesRe. cbn [run].
  destruct (isSpace c); [|reflexivity]. now rewrite star_spaces.
Qed.

Lemma collapse_scanner s :
  replaceAllFrom false spacesRe oneSpace s 0 = collapse false s
  /\ replaceAllFrom false spacesRe oneSpace s (spaceRun s) = collapse true s.
Proof.
  induction s as [|c t [IH0 IH1]]; [now split|].
  assert (E0 : replaceAllFrom false spacesRe oneSpace (String c t) 0
               = collapse false (String c t)).
  { rewrite replaceAllFrom_here, matchAt_spaces. cbn [collapse].
    destruct (isSpace c); cbv iota beta.
    - rewrite IH1. reflexivity.
    - now rewrite IH0. }
  split; [exact E0|].
  cbn [spaceRun collapse]. destruct (isSpace c) eqn:E.
  - cbn [replaceAllFrom]. exact IH1.
  - rewrite E0. cbn [collapse]. now rewrite E.
Qed.

Lemma startsClean_collapse s : startsClean (collapse true s) = true.
Proof.
  induction s as [|c t IH]; [reflexivity|]. cbn [collapse].
  destruct (isSpace c) eqn:E; [exact IH|]. simpl. now rewrite E.
Qed.

Lemma singleSpaced_collapse s : forall inRun,
  singleSpaced (collapse inRun s) = true.
Proof.
  induction s as [|c t IH]; intros inRun; [reflexivity|]. cbn [collapse].
  destruct (isSpace c) eqn:E.
  - destruct inRun; [apply IH|].
    cbn [singleSpaced]. rewrite (IH true).
    pose proof (startsClean_collapse t) as Hc.
    destruct (collapse true t) as [|d r]; [reflexivity|].
    simpl in Hc. apply negb_true_iff in Hc. now rewrite Hc.
  - cbn [singleSpaced]. rewrite (IH false), E. simpl.
    destruct (collapse false t); reflexivity.
Qed.

Lemma singleSpaced_tail c t : singleSpaced (String c t) = true -> singleSpaced t = true.
Proof.
  cbn [singleSpaced]. intros H. now apply andb_true_iff in H as [_ H].
Qed.

Lemma singleSpaced_trimStart s :
  singleSpaced s = true -> singleSpaced (trimStart s) = true.
Proof.
  induction s as [|c t IH]; [reflexivity|]. intros H. simpl.
  destruct (isSpace c); [|exact H]. apply IH. exact (singleSpaced_tail _ _ H).
Qed.

Lemma trimEnd_head t x r : trimEnd t = String x r -> exists t', t = String x t'.
Proof.
  destruct t as [|c t]; [discriminate|]. simpl.
  destruct (trimEnd t); [destruct (isSpace c); [discriminate|]|];
    intros [= <- _]; eauto.
Qed.

Lemma singleSpaced_trimEnd s :
  singleSpaced s = true -> singleSpaced (trimEnd s) = true.
Proof.
  induction s as [|c t IH]; [reflexivity|]. intros H.
  pose proof (IH (singleSpaced_tail _ _ H)) as Ht.
  cbn [singleSpaced] in H. apply andb_true_iff in H as [H _].
  apply andb_true_iff in H as [H1 H2].
  simpl. destruct (trimEnd t) as [|x r] eqn:E.
  - destruct (isSpace c) eqn:Ec; [reflexivity|].
    cbn [singleSpaced]. now rewrite Ec.
  - destruct (trimEnd_head _ _ _ E) as [t' ->].
    cbn [singleSpaced]. cbn [singleSpaced] in Ht. now rewrite H1, H2, Ht.
Qed.

Lemma singleSpaced_take n : forall s,
  singleSpaced s = true -> singleSpaced (take n s) = true.
Proof.
  induction n as [|n IH]; intros [|c t] H; try reflexivity.
  pose proof (IH t (singleSpaced_tail _ _ H)) as Ht.
  cbn [singleSpaced] in H. apply andb_true_iff in H as [H _].
  apply andb_true_iff in H as [H1 H2].
  cbn [take singleSpaced]. rewrite H1, Ht.
  destruct n as [|n]; [reflexivity|]. destruct t as [|d t']; [reflexivity|].
  cbn [take]. now rewrite H2.
Qed.

Lemma startsClean_take n s :
  startsClean s = true -> startsClean (take n s) = true.
Proof. destruct n, s; auto. Qed.

(** ** Address lists *)

Lemma concat_cons sep x y (l : list string) :
  String.concat sep (x :: y :: l) = x ++ sep ++ String.concat sep (y :: l).
Proof. reflexivity. Qed.

Lemma concat_app sep (l1 l2 : list string) :
  l1 <> [] -> l2 <> [] ->
  String.concat sep (l1 ++ l2)
  = String.concat sep l1 ++ sep ++ String.concat sep l2.
Proof.
  intros H1 H2. induction l1 as [|x [|y l] IH]; [contradiction| |].
  - destruct l2 as [|z l2]; [contradiction|]. reflexivity.
  - change ((x :: y :: l) ++ l2)%list with (x :: (y :: l) ++ l2)%list.
    change ((y :: l) ++ l2)%list with (y :: l ++ l2)%list.
    rewrite (concat_cons sep x y (l ++ l2)).
    change (y :: l ++ l2)%list with ((y :: l) ++ l2)%list.
    rewrite IH by discriminate.
    rewrite concat_cons. now rewrite !append_assoc.
Qed.

End MoreDecoderFacts.

(* ================================================================== *)
(** * Further facts about the transporter cache *)

Module MoreCacheFacts.
Import Smtp CacheFacts.

Lemma getTransporter_installed smtpHost smtpPort smtpUser smtpPass
      nowCheck nowStore w h w' :
  getTransporter smtpHost smtpPort smtpUser smtpPass nowCheck nowStore w = (h, w') ->
  exists e, transporterCache w' !! cacheKeyOf smtpHost smtpPort smtpUser = Some e
            /\ cachedTransporter e = h.
Proof.
  intros E.
  pose proof (getTransporter_outcome smtpHost smtpPort smtpUser smtpPass
                nowCheck nowStore w) as O.
  rewrite E in O.
  inversion O; subst; simpl; eauto;
    eexists; (split; [apply lookup_insert_eq|reflexivity]).
Qed.

Lemma getTransporter_keeps_keys smtpHost smtpPort smtpUser smtpPass
      nowCheck nowStore w key :
  is_Some (transporterCache w !! key) ->
  is_Some (transporterCache
             (snd (getTransporter smtpHost smtpPort smtpUser smtpPass
                                  nowCheck nowStore w)) !! key).
Proof.
  intros H.
  destruct (decide (key = cacheKeyOf smtpHost smtpPort smtpUser)) as [->|Hne].
  - destruct (getTransporter smtpHost smtpPort smtpUser smtpPass
                nowCheck nowStore w) as [h w'] eqn:E.
    destruct (getTransporter_installed _ _ _ _ _ _ _ _ _ E) as (e & He & _).
    simpl. now rewrite He.
  - now rewrite getTransporter_other_key.
Qed.

Lemma getTransporter_first_call smtpHost smtpPort smtpUser smtpPass
      nowCheck nowStore w h w' :
  transporterCache w !! cacheKeyOf smtpHost smtpPort smtpUser = None ->
  getTransporter smtpHost smtpPort smtpUser smtpPass nowCheck nowStore w = (h, w') ->
  options h = optionsOf smtpHost smtpPort smtpUser smtpPass
  /\ transporterCache w' !! cacheKeyOf smtpHost smtpPort smtpUser
     = Some (mkEntry h nowStore).
Proof.
  intros Hk. unfold getTransporter, installNew, createTransport, cacheSet.
  rewrite Hk. intros [= <- <-]. simpl. split; [reflexivity|].
  apply lookup_insert_eq.
Qed.

Lemma getTransporter_fresh smtpHost smtpPort smtpUser smtpPass
      nowCheck nowStore w e :
  transporterCache w !! cacheKeyOf smtpHost smtpPort smtpUser = Some e ->
  (nowCheck - created e < TRANSPORTER_TTL)%Z ->
  getTransporter smtpHost smtpPort smtpUser smtpPass nowCheck nowStore w
  = (cachedTransporter e, w).
Proof.
  intros Hk Hf. unfold getTransporter. rewrite Hk.
  apply Z.ltb_lt in Hf. now rewrite Hf.
Qed.

End MoreCacheFacts.

(* ================================================================== *)
(** * Missing header fields *)

Module HeaderFacts.
Import Chars JsString Regex Mime Spec Shape.
Import StringFacts DecoderFacts WalkFacts MoreStringFacts.

Lemma run_lits_exact {R : Type} w : forall s pos caps
    (k : string -> nat -> list string -> option R) x,
  run false (lits w) s pos caps k = Some x -> String.prefix w s = true.
Proof.
  induction w as [|c t IH]; intros s pos caps k x.
  - intros _. destruct s; reflexivity.
  - destruct s as [|a s']; [discriminate|]. simpl. unfold sameChar.
    destruct (Ascii.eqb a c) eqn:E; [|discriminate].
    apply Ascii.eqb_eq in E. subst a.
    destruct (ascii_dec c c); [|contradiction]. apply IH.
Qed.

Lemma includes_tail needle c t :
  includes needle (String c t) = false -> includes needle t = false.
Proof.
  unfold includes. rewrite indexOf_cons.
  destruct (String.prefix needle (String c t)); [discriminate|].
  destruct (indexOf needle t); [discriminate|reflexivity].
Qed.

Lemma includes_prefix needle s :
  String.prefix needle s = true -> includes needle s = true.
Proof. intros H. unfold includes. now rewrite indexOf_here, H. Qed.

(** A pattern that begins with a literal finds nothing in a text that
    does not contain the literal, in any letter case under the [i] flag. *)
Lemma search_literal_absent_nocase w r s :
  includes (toLowerCase w) (toLowerCase s) = false ->
  search true (Seq (lits w) r) s = None.
Proof.
  induction s as [|c t IH]; intros H; cbn [search].
  - destruct (matchAt true (Seq (lits w) r) EmptyString) as [[n caps]|] eqn:Em;
      [|reflexivity].
    unfold matchAt in Em. cbn [run] in Em. apply run_lits_prefix in Em.
    apply includes_prefix in Em. congruence.
  - destruct (matchAt true (Seq (lits w) r) (String c t)) as [[n caps]|] eqn:Em.
    + unfold matchAt in Em. cbn [run] in Em. apply run_lits_prefix in Em.
      apply includes_prefix in Em. congruence.
    + apply IH. cbn [toLowerCase] in H. exact (includes_tail _ _ _ H).
Qed.

Lemma search_literal_absent w r s :
  includes w s = false -> search false (Seq (lits w) r) s = None.
Proof.
  induction s as [|c t IH]; intros H; cbn [search].
  - destruct (matchAt false (Seq (lits w) r) EmptyString) as [[n caps]|] eqn:Em;
      [|reflexivity].
    unfold matchAt in Em. cbn [run] in Em. apply run_lits_exact in Em.
    apply includes_prefix in Em. congruence.
  - destruct (matchAt false (Seq (lits w) r) (String c t)) as [[n caps]|] eqn:Em.
    + unfold matchAt in Em. cbn [run] in Em. apply run_lits_exact in Em.
      apply includes_prefix in Em. congruence.
    + apply IH. exact (includes_tail _ _ _ H).
Qed.

End HeaderFacts.

(* ================================================================== *)
(** * The answer of the list handler *)

Module ListingFacts.
Import Listing.

Lemma insertByDate_permutation m l : Permutation (insertByDate m l) (m :: l).
Proof.
  induction l as [|x r IH]; simpl; [reflexivity|].
  destruct (date x <=? date m)%Z; [reflexivity|].
  rewrite IH. apply perm_swap.
Qed.

Lemma sortByDate_permutation l : Permutation (sortByDate l) l.
Proof.
  induction l as [|m r IH]; simpl; [reflexivity|].
  rewrite insertByDate_permutation. now constructor.
Qed.

Lemma notAfter_spec d l :
  notAfter d l = true <-> forall m, In m l -> (date m <= d)%Z.
Proof.
  unfold notAfter. rewrite forallb_forall. split; intros H m Hm.
  - apply Z.leb_le. now apply H.
  - apply Z.leb_le. now apply H.
Qed.

Lemma notAfter_insert d m l :
  (date m <= d)%Z -> notAfter d l = true -> notAfter d (insertByDate m l) = true.
Proof.
  intros Hm Hl. apply notAfter_spec. intros x Hx.
  apply (Permutation_in _ (insertByDate_permutation m l)) in Hx as [<-|Hx];
    [exact Hm|]. now apply (proj1 (notAfter_spec d l) Hl).
Qed.

Lemma notAfter_later d d' l :
  (d <= d')%Z -> notAfter d l = true -> notAfter d' l = true.
Proof.
  intros Hd Hl. apply notAfter_spec. intros x Hx.
  pose proof (proj1 (notAfter_spec d l) Hl x Hx). lia.
Qed.

Lemma latestFirst_insert m l :
  latestFirst l = true -> latestFirst (insertByDate m l) = true.
Proof.
  induction l as [|x r IH]; intros H; [reflexivity|].
  cbn [latestFirst] in H. apply andb_true_iff in H as [H1 H2].
  cbn [insertByDate]. destruct (Z.leb_spec (date x) (date m)) as [Hle|Hgt].
  - cbn [latestFirst notAfter forallb].
    apply andb_true_iff. split.
    + apply andb_true_iff. split; [now apply Z.leb_le|].
      exact (notAfter_later _ _ _ Hle H1).
    + now rewrite H1, H2.
  - cbn [latestFirst]. apply andb_true_iff. split.
    + apply notAfter_insert; [lia|exact H1].
    + now apply IH.
Qed.

Lemma latestFirst_sort l : latestFirst (sortByDate l) = true.
Proof.
  induction l as [|m r IH]; [reflexivity|]. simpl. now apply latestFirst_insert.
Qed.

Lemma latestFirst_split l1 : forall l2,
  latestFirst (l1 ++ l2) = true ->
  latestFirst l1 = true
  /\ forall a b, In a l1 -> In b l2 -> (date b <= date a)%Z.
Proof.
  induction l1 as [|x r IH]; intros l2 H.
  - split; [reflexivity|]. intros a b [].
  - change ((x :: r) ++ l2)%list with (x :: r ++ l2)%list in H.
    cbn [latestFirst] in H. apply andb_true_iff in H as [H1 H2].
    destruct (IH l2 H2) as [Hr Hc].
    pose proof (proj1 (notAfter_spec _ _) H1) as Hx. split.
    + cbn [latestFirst]. apply andb_true_iff. split; [|exact Hr].
      apply notAfter_spec. intros m Hm. apply Hx, in_or_app. now left.
    + intros a b [<-|Ha] Hb.
      * apply Hx, in_or_app. now right.
      * now apply Hc.
Qed.

End ListingFacts.

(* ================================================================== *)
(** * Further properties of the decoding core *)

Import Chars JsString Regex Mime Spec Inputs Handlers Shape.
Import StringFacts Termination DecoderFacts WalkFacts.
Import MoreStringFacts MoreWalkFacts MoreDecoderFacts.

(** X1. Both walks terminate on every source: with any fuel above the
    length of the source they return, and return what the top-level
    functions return. *)
Theorem X1_walks_terminate
        (rt : string -> option string) (raw : string) (n : nat) :
  String.length raw < n ->
  extractBodyFuel rt n raw = extractBodyFromSource rt raw
  /\ extractAttachmentsFuel n raw = extractAttachmentsFromSource raw
  /\ (exists body, extractBodyFromSource rt raw = Some body)
  /\ (exists found, extractAttachmentsFromSource raw = Some found).
Proof.
  intros H. repeat split.
  - now apply extractBodyFuel_enough.
  - now apply extractAttachmentsFuel_enough.
  - apply extractBodyFromSource_total.
  - apply extractAttachmentsFromSource_total.
Qed.

Lemma X1_witness :
  extractBodyFuel strictBase64 1000 alternativeMessage
  = extractBodyFromSource strictBase64 alternativeMessage.
Proof.
  apply (X1_walks_terminate strictBase64 alternativeMessage 1000).
  apply Nat.ltb_lt. vm_compute. reflexivity.
Defined.

(** X2. A source in which CR LF CR LF does not occur, for instance one
    whose lines end in LF alone, resolves to the empty body and to no
    attachment, whether or not it declares a boundary. *)
Theorem X2_no_blank_line_no_body
        (rt : string -> option string) (raw : string) :
  indexOf CRLFCRLF raw = None ->
  extractBodyFromSource rt raw = Some EmptyString
  /\ extractAttachmentsFromSource raw = Some [].
Proof.
  intros H.
  rewrite extractBodyFromSource_unfold, extractAttachmentsFromSource_unfold.
  destruct (partsOf raw) as [parts|] eqn:Ep.
  - assert (Hs : forall p, In p parts -> classifyPart p = Skipped).
    { intros p Hp. apply classifyPart_no_blank_line.
      destruct (partsOf_pieces _ _ _ Ep Hp) as [sep Hsep].
      exact (split_keeps_absent _ _ _ _ H Hsep). }
    rewrite bodyLoop_all_skipped, attachmentLoop_all_skipped by exact Hs.
    now split.
  - unfold singleEntityBody. rewrite H. now split.
Qed.

Lemma X2_witness :
  extractBodyFromSource strictBase64 bareLfMessage = Some EmptyString
  /\ extractAttachmentsFromSource bareLfMessage = Some [].
Proof.
  apply (X2_no_blank_line_no_body strictBase64 bareLfMessage).
  vm_compute. reflexivity.
Defined.

(** X3. The recursion into a nested multipart part is handed the text
    after the part's header block only: when that text itself mentions no
    boundary token, the attachment walk finds nothing in the part, and
    the body walk reads the text as one non-multipart entity. *)
Theorem X3_nested_part_read_as_one_entity
        (rt : string -> option string) (acc : bodies)
        (attachments : list attachment) (part body : string) :
  classifyPart part = NestedPart body ->
  hasBoundaryToken body = false ->
  attachmentStep extractAttachmentsFromSource attachments part = Some attachments
  /\ bodyStep rt (extractBodyFromSource rt) acc part
     = bodyStep rt (fun text => Some (singleEntityBody rt text)) acc part.
Proof.
  intros Hc Hb. destruct (no_token_single_entity rt body Hb) as [E1 E2]. split.
  - rewrite attachmentStep_classify, Hc, E2. now rewrite app_nil_r.
  - now rewrite !bodyStep_classify, Hc, E1.
Qed.

Lemma X3_witness :
  attachmentStep extractAttachmentsFromSource [] nestedPart = Some []
  /\ bodyStep strictBase64 (extractBodyFromSource strictBase64)
              (mkBodies EmptyString EmptyString) nestedPart
     = bodyStep strictBase64 (fun text => Some (singleEntityBody strictBase64 text))
                (mkBodies EmptyString EmptyString) nestedPart.
Proof.
  apply (X3_nested_part_read_as_one_entity strictBase64
           (mkBodies EmptyString EmptyString) [] nestedPart
           (drop 50 nestedPart)); vm_compute; reflexivity.
Defined.

(** X4. Every attachment the walk returns has a payload that is not
    empty and holds no white space, and a size that is the ceiling of
    three fourths of the payload's length; this holds at every depth of
    the recursion. *)
Theorem X4_attachments_well_formed (raw : string) :
  exists found,
    extractAttachmentsFromSource raw = Some found /\ Forall wellFormed found.
Proof.
  destruct (extractAttachmentsFromSource_total raw) as [found E].
  exists found. split; [exact E|].
  exact (extractAttachmentsFuel_wellFormed _ _ _ E).
Qed.

(** X5. The attachment loop only appends, in the order of the parts: the
    list for two runs of parts is the list built so far, followed by the
    attachments of the first run, followed by those of the second. *)
Theorem X5_attachments_in_part_order
        (recur : string -> option (list attachment))
        (attachments : list attachment) (parts1 parts2 : list string) :
  attachmentLoop recur attachments (parts1 ++ parts2)
  = match attachmentLoop recur [] parts1, attachmentLoop recur [] parts2 with
    | Some found1, Some found2 => Some (attachments ++ found1 ++ found2)%list
    | _, _ => None
    end.
Proof.
  rewrite attachmentLoop_app, (attachmentLoop_appends recur parts1 attachments).
  destruct (attachmentLoop recur [] parts1) as [a|]; simpl; [|reflexivity].
  rewrite (attachmentLoop_appends recur parts2 (attachments ++ a)%list).
  destruct (attachmentLoop recur [] parts2) as [b|]; simpl; [|reflexivity].
  now rewrite app_assoc.
Qed.

(** X6. An attachment whose transfer encoding is not base64 is encoded
    again from its content: for a content of n characters the payload has
    4 * ceil(n / 3) characters and the declared size is 3 * ceil(n / 3),
    which is the length of the content or up to two more. *)
Theorem X6_reencoded_attachment_size
        (recur : string -> option (list attachment))
        (attachments : list attachment) (part h c : string) :
  classifyPart part = LeafPart h c ->
  isAttachment (toLowerCase h) || isInlineWithFilename (toLowerCase h) = true ->
  encodingOf (toLowerCase h) <> "base64" ->
  c <> EmptyString ->
  exists a,
    attachmentStep recur attachments part = Some (attachments ++ [a])%list
    /\ base64 a = toBase64 c
    /\ String.length (base64 a) = 4 * ((String.length c + 2) / 3)
    /\ size a = 3 * ((String.length c + 2) / 3)
    /\ String.length c <= size a <= String.length c + 2.
Proof.
  intros Hc Ha He Hne. apply String.eqb_neq in He.
  assert (Hd : base64DataOf (encodingOf (toLowerCase h)) c = toBase64 c)
    by (unfold base64DataOf; now rewrite He).
  assert (Ht : truthy (toBase64 c) = true).
  { destruct (toBase64 c) eqn:E; [|reflexivity].
    now apply toBase64_empty in E. }
  eexists. split.
  - rewrite attachmentStep_classify, Hc, Ha. cbv zeta. rewrite Hd, Ht. reflexivity.
  - simpl. rewrite toBase64_length, ceilDiv_quarters.
    repeat split; try reflexivity; apply thirds_bound.
Qed.

Lemma X6_witness :
  exists a,
    attachmentStep (fun _ => None) []
      (CRLF ++ "Content-Disposition: attachment; filename=a.txt"
         ++ CRLF ++ CRLF ++ "hello" ++ CRLF)
    = Some [a]
    /\ base64 a = "aGVsbG8=" /\ size a = 6.
Proof.
  destruct (X6_reencoded_attachment_size (fun _ => None) []
              (CRLF ++ "Content-Disposition: attachment; filename=a.txt"
                 ++ CRLF ++ CRLF ++ "hello" ++ CRLF)
              (CRLF ++ "Content-Disposition: attachment; filename=a.txt")
              "hello") as (a & H1 & H2 & _ & H4 & _);
    [vm_compute; reflexivity|vm_compute; reflexivity
    |vm_compute; discriminate|discriminate|].
  exists a. split; [exact H1|]. split; [exact H2|exact H4].
Defined.

(** X7. Once a candidate is found it is replaced only by a later leaf of
    its kind: over parts none of which is a [text/html] leaf a non-empty
    HTML candidate stays what it is, results of nested parts included,
    and likewise for the plain-text candidate. *)
Theorem X7_found_candidates_kept
        (rt : string -> option string) (recur : string -> option string)
        (parts : list string) (acc acc' : bodies) :
  bodyLoop rt recur acc parts = Some acc' ->
  (Forall sparesHtml parts -> truthy (htmlBody acc) = true ->
   htmlBody acc' = htmlBody acc)
  /\ (Forall sparesText parts -> truthy (textBody acc) = true ->
      textBody acc' = textBody acc).
Proof.
  intros E. split; intros Hp Ht.
  - exact (bodyLoop_sparesHtml rt recur parts acc acc' Hp Ht E).
  - exact (bodyLoop_sparesText rt recur parts acc acc' Hp Ht E).
Qed.

Lemma X7_witness :
  (exists acc',
      bodyLoop strictBase64 (extractBodyFromSource strictBase64)
               (mkBodies "<b>first</b>" EmptyString)
               [(CRLF ++ "Content-Type: text/plain" ++ CRLF ++ CRLF
                   ++ "second" ++ CRLF)%string; "--"%string] = Some acc'
      /\ htmlBody acc' = "<b>first</b>")
  /\ (exists acc',
         bodyLoop strictBase64 (extractBodyFromSource strictBase64)
                  (mkBodies EmptyString "first") [secondHtmlPart] = Some acc'
         /\ textBody acc' = "first").
Proof.
  split.
  - exists (mkBodies "<b>first</b>" "second").
    assert (E : bodyLoop strictBase64 (extractBodyFromSource strictBase64)
                  (mkBodies "<b>first</b>" EmptyString)
                  [(CRLF ++ "Content-Type: text/plain" ++ CRLF ++ CRLF
                      ++ "second" ++ CRLF)%string; "--"%string]
                = Some (mkBodies "<b>first</b>" "second"))
      by (vm_compute; reflexivity).
    split; [exact E|].
    apply (proj1 (X7_found_candidates_kept _ _ _ _ _ E)); [|reflexivity].
    constructor; [vm_compute; reflexivity|].
    constructor; [vm_compute; exact I|constructor].
  - exists (mkBodies "<p>second</p>" "first").
    assert (E : bodyLoop strictBase64 (extractBodyFromSource strictBase64)
                  (mkBodies EmptyString "first") [secondHtmlPart]
                = Some (mkBodies "<p>second</p>" "first"))
      by (vm_compute; reflexivity).
    split; [exact E|].
    apply (proj2 (X7_found_candidates_kept _ _ _ _ _ E)); [|reflexivity].
    constructor; [vm_compute; left; reflexivity|constructor].
Defined.

(** X8. Text without an equals sign passes through quoted-printable
    decoding unchanged. *)
Theorem X8_qp_plain_text_unchanged
        (rt : string -> option string) (content : string) :
  equalsFree content = true ->
  decodePart rt content "quoted-printable" = content.
Proof.
  intros H.
  change (decodePart rt content "quoted-printable")
    with (replaceAll false hexEscapeRe hexEscapeValue
            (replaceAll false softBreakRe noText content)).
  rewrite softBreaks_scanner, hexEscapes_scanner.
  now rewrite (removeSoftBreaks_equalsFree _ H), (unescapeHex_equalsFree _ H).
Qed.

Lemma X8_witness :
  decodePart strictBase64 "plain text, 100%" "quoted-printable"
  = "plain text, 100%".
Proof.
  apply (X8_qp_plain_text_unchanged strictBase64 "plain text, 100%").
  reflexivity.
Defined.

(** X9. Quoted-printable decoding never lengthens a text. *)
Theorem X9_qp_never_longer (rt : string -> option string) (content : string) :
  String.length (decodePart rt content "quoted-printable")
  <= String.length content.
Proof.
  change (decodePart rt content "quoted-printable")
    with (replaceAll false hexEscapeRe hexEscapeValue
            (replaceAll false softBreakRe noText content)).
  rewrite softBreaks_scanner, hexEscapes_scanner.
  pose proof (removeSoftBreaks_length_upto _ content (le_n _)) as H1.
  pose proof (unescapeHex_length_upto _ (removeSoftBreaks content) (le_n _)) as H2.
  lia.
Qed.

(** X10. For base64 only the characters of the content that are not
    white space count: two contents that agree on them decode alike when
    the runtime decoder accepts them. *)
Theorem X10_base64_ignores_white_space
        (rt : string -> option string) (content1 content2 decoded : string) :
  withoutWhitespace content1 = withoutWhitespace content2 ->
  rt (withoutWhitespace content1) = Some decoded ->
  decodePart rt content1 "base64" = decoded
  /\ decodePart rt content2 "base64" = decoded.
Proof.
  intros H1 H2.
  change (decodePart rt content1 "base64")
    with (match rt (stripWhitespace content1) with
          | Some d => d | None => content1 end).
  change (decodePart rt content2 "base64")
    with (match rt (stripWhitespace content2) with
          | Some d => d | None => content2 end).
  rewrite !stripWhitespace_filter, <- H1, H2. now split.
Qed.

Lemma X10_witness :
  decodePart strictBase64 ("aGVs" ++ CRLF ++ "bG8=") "base64" = "hello"
  /\ decodePart strictBase64 " aGVsbG8= " "base64" = "hello".
Proof.
  apply (X10_base64_ignores_white_space strictBase64
           ("aGVs" ++ CRLF ++ "bG8=") " aGVsbG8= " "hello");
    vm_compute; reflexivity.
Defined.

(** X11. The body of a source without a boundary token never begins or
    ends with white space: trimming it again changes nothing. *)
Theorem X11_single_entity_body_trimmed
        (rt : string -> option string) (raw : string) :
  hasBoundaryToken raw = false ->
  exists body,
    extractBodyFromSource rt raw = Some body
    /\ trim body = body /\ startsClean body = true.
Proof.
  intros H. destruct (no_token_single_entity rt raw H) as [E _].
  exists (singleEntityBody rt raw). split; [exact E|].
  unfold singleEntityBody. destruct (indexOf CRLFCRLF raw).
  - split; [apply trim_trim|apply startsClean_trim].
  - now split.
Qed.

Lemma X11_witness :
  exists body,
    extractBodyFromSource strictBase64 paddedPlainMessage = Some body
    /\ trim body = body /\ startsClean body = true.
Proof.
  apply (X11_single_entity_body_trimmed strictBase64 paddedPlainMessage).
  vm_compute. reflexivity.
Defined.

(* ================================================================== *)
(** * Properties of the handlers' helpers *)

(** X12. The snippet of a message has at most 200 characters, is on one
    line (every white-space character in it is a plain space and no two
    are adjacent) and does not begin with white space; a message without
    source has the empty snippet. *)
Theorem X12_snippet_shape
        (rt : string -> option string) (source : option string) :
  String.length (snippetOf rt source) <= 200
  /\ singleSpaced (snippetOf rt source) = true
  /\ startsClean (snippetOf rt source) = true
  /\ snippetOf rt None = EmptyString.
Proof.
  assert (H : forall b, String.length (snippetOfBody b) <= 200
                        /\ singleSpaced (snippetOfBody b) = true
                        /\ startsClean (snippetOfBody b) = true).
  { intros b. unfold snippetOfBody, substringTo, replaceAll.
    rewrite (proj1 (collapse_scanner _)). repeat split.
    - apply length_take.
    - apply singleSpaced_take. unfold trim.
      apply singleSpaced_trimEnd, singleSpaced_trimStart, singleSpaced_collapse.
    - apply startsClean_take, startsClean_trim. }
  unfold snippetOf. destruct source as [raw|].
  - destruct (extractBodyFromSource rt raw) as [b|].
    + destruct (H b) as (H1 & H2 & H3). repeat split; assumption.
    + repeat split; simpl; lia.
  - repeat split; simpl; lia.
Qed.

(** X13. [parseAddressList] joins the formatted addresses with a comma
    and a space, so the text of two lists put together is the two texts
    joined the same way; [parseAddress] gives the text of the first
    address alone. *)
Theorem X13_address_lists (l1 l2 : list envelopeAddress) :
  l1 <> [] -> l2 <> [] ->
  parseAddressList (Some (l1 ++ l2)%list)
  = parseAddressList (Some l1) ++ ", " ++ parseAddressList (Some l2)
  /\ parseAddress (Some (l1 ++ l2)%list)
     = parseAddressList (Some (firstn 1 l1)).
Proof.
  intros H1 H2. split.
  - destruct l1 as [|a l1]; [contradiction|].
    destruct l2 as [|b l2]; [contradiction|].
    change (parseAddressList (Some ((a :: l1) ++ b :: l2)%list))
      with (String.concat ", "
              (map formatAddress ((a :: l1) ++ b :: l2)%list)).
    rewrite map_app. now rewrite concat_app by discriminate.
  - destruct l1 as [|a l1]; [contradiction|]. reflexivity.
Qed.

Lemma X13_witness :
  parseAddressList
    (Some [mkAddress (Some "Ann") (Some "ann@example.org");
           mkAddress None (Some "bob@example.org")])
  = "Ann <ann@example.org>, bob@example.org"
  /\ parseAddress
       (Some [mkAddress (Some "Ann") (Some "ann@example.org");
              mkAddress None (Some "bob@example.org")])
     = "Ann <ann@example.org>".
Proof.
  apply (X13_address_lists
           [mkAddress (Some "Ann") (Some "ann@example.org")]
           [mkAddress None (Some "bob@example.org")]); discriminate.
Defined.

(* ================================================================== *)
(** * Further properties of the transporter cache *)

Import Smtp CacheFacts MoreCacheFacts.

(** X14. In every reachable state the transporter a call returns is
    live: it was made for the key of the call and has not been closed. *)
Theorem X14_returned_transporter_live
        (w : world) (smtpHost : string) (smtpPort : option nat)
        (smtpUser smtpPass : string) (nowCheck nowStore : Z)
        (h : transporter) (w' : world) :
  reachable w ->
  getTransporter smtpHost smtpPort smtpUser smtpPass nowCheck nowStore w = (h, w') ->
  live (trace w') (cacheKeyOf smtpHost smtpPort smtpUser) h.
Proof.
  intros Hr E.
  pose proof (invariant_call w smtpHost smtpPort smtpUser smtpPass
                nowCheck nowStore (reachable_invariant w Hr)) as I.
  rewrite E in I. simpl in I.
  destruct (getTransporter_installed _ _ _ _ _ _ _ _ _ E) as (e & He & <-).
  exact (cached_live w' I _ e He).
Qed.

Lemma X14_witness :
  let call := getTransporter "smtp.example.org" None "user" "secret"
                             1000 1000 initial in
  live (trace (snd call)) "smtp.example.org:undefined:user" (fst call).
Proof.
  intros call.
  apply (X14_returned_transporter_live initial "smtp.example.org" None
           "user" "secret" 1000 1000 (fst call) (snd call)).
  - constructor.
  - apply surjective_pairing.
Defined.

(** X15. A call never leaves a key without an entry: every key that has
    an entry before the call has one after it.  Entries are replaced,
    never removed, so the cache does not shrink. *)
Theorem X15_cache_never_shrinks
        (w : world) (smtpHost : string) (smtpPort : option nat)
        (smtpUser smtpPass : string) (nowCheck nowStore : Z) (key : string) :
  is_Some (transporterCache w !! key) ->
  is_Some (transporterCache
             (snd (getTransporter smtpHost smtpPort smtpUser smtpPass
                                  nowCheck nowStore w)) !! key).
Proof. apply getTransporter_keeps_keys. Qed.

Lemma X15_witness :
  let w1 := snd (getTransporter "a.example.org" (Some 465) "ann" "secret"
                                0 0 initial) in
  is_Some (transporterCache
             (snd (getTransporter "a.example.org" (Some 465) "ann" "secret"
                                  900000 900000 w1))
           !! "a.example.org:465:ann").
Proof.
  intros w1.
  apply (X15_cache_never_shrinks w1 "a.example.org" (Some 465) "ann" "secret"
           900000 900000 "a.example.org:465:ann").
  vm_compute. eauto.
Defined.

(** X16. The key is the text host:port:user and nothing else.  After a
    call that found no entry, a call whose key text is the same and that
    comes before the entry expires gets the transporter of the first
    call, with the host, the user and the password of the first call: a
    changed password is not used, and two different triples with the
    same key text share one transporter. *)
Theorem X16_same_key_text_same_transporter
        (w : world) (host1 host2 : string) (port1 port2 : option nat)
        (user1 user2 pass1 pass2 : string) (check1 store1 check2 store2 : Z)
        (h1 h2 : transporter) (w1 w2 : world) :
  transporterCache w !! cacheKeyOf host1 port1 user1 = None ->
  getTransporter host1 port1 user1 pass1 check1 store1 w = (h1, w1) ->
  cacheKeyOf host2 port2 user2 = cacheKeyOf host1 port1 user1 ->
  (check2 - store1 < TRANSPORTER_TTL)%Z ->
  getTransporter host2 port2 user2 pass2 check2 store2 w1 = (h2, w2) ->
  h2 = h1 /\ w2 = w1
  /\ options h2 = optionsOf host1 port1 user1 pass1.
Proof.
  intros Hk E1 Hkey Hf E2.
  destruct (getTransporter_first_call _ _ _ _ _ _ _ _ _ Hk E1) as [Ho He].
  rewrite <- Hkey in He.
  rewrite (getTransporter_fresh host2 port2 user2 pass2 check2 store2 w1 _ He Hf)
    in E2.
  simpl in E2. injection E2 as <- <-. now repeat split.
Qed.

Lemma X16_witness :
  let call1 := getTransporter "mail.example.org" (Some 1) "2:ann" "old"
                              0 0 initial in
  let call2 := getTransporter "mail.example.org:1" (Some 2) "ann" "new"
                              5000 5000 (snd call1) in
  fst call2 = fst call1 /\ snd call2 = snd call1
  /\ options (fst call2) = optionsOf "mail.example.org" (Some 1) "2:ann" "old".
Proof.
  intros call1 call2.
  apply (X16_same_key_text_same_transporter initial
           "mail.example.org" "mail.example.org:1" (Some 1) (Some 2)
           "2:ann" "ann" "old" "new" 0 0 5000 5000
           (fst call1) (fst call2) (snd call1) (snd call2)).
  - reflexivity.
  - apply surjective_pairing.
  - vm_compute. reflexivity.
  - vm_compute. reflexivity.
  - apply surjective_pairing.
Defined.

(** X17. A call touches its own key only: in every reachable state the
    entry of any other key is the same after the call, and its
    transporter is still not closed. *)
Theorem X17_other_keys_untouched
        (w : world) (smtpHost : string) (smtpPort : option nat)
        (smtpUser smtpPass : string) (nowCheck nowStore : Z)
        (key : string) (e : cacheEntry) :
  reachable w ->
  key <> cacheKeyOf smtpHost smtpPort smtpUser ->
  transporterCache w !! key = Some e ->
  let w' := snd (getTransporter smtpHost smtpPort smtpUser smtpPass
                                nowCheck nowStore w) in
  transporterCache w' !! key = Some e
  /\ ~ In (Closed (cachedTransporter e)) (trace w').
Proof.
  intros Hr Hne He w'.
  assert (He' : transporterCache w' !! key = Some e).
  { unfold w'. now rewrite getTransporter_other_key. }
  split; [exact He'|].
  pose proof (invariant_call w smtpHost smtpPort smtpUser smtpPass
                nowCheck nowStore (reachable_invariant w Hr)) as I.
  now destruct (cached_live _ I key e He').
Qed.

Lemma X17_witness :
  let call1 := getTransporter "a.example.org" (Some 465) "ann" "secret"
                              0 0 initial in
  let w2 := snd (getTransporter "b.example.org" (Some 465) "bob" "secret"
                                900000 900000 (snd call1)) in
  transporterCache w2 !! "a.example.org:465:ann" = Some (mkEntry (fst call1) 0)
  /\ ~ In (Closed (fst call1)) (trace w2).
Proof.
  intros call1 w2.
  apply (X17_other_keys_untouched (snd call1) "b.example.org" (Some 465)
           "bob" "secret" 900000 900000 "a.example.org:465:ann"
           (mkEntry (fst call1) 0)).
  - constructor. constructor.
  - vm_compute. discriminate.
  - vm_compute. reflexivity.
Defined.

(* ================================================================== *)
(** * Further properties of the attachment collector *)

Import HeaderFacts.

(** X19. What a header block without a field gives: without [filename=]
    the file is named attachment, without [content-type:] its type is
    application/octet-stream, and without [content-transfer-encoding:]
    its encoding is empty and the body walk takes its content as it is. *)
Theorem X19_header_defaults (rt : string -> option string) (h c : string) :
  (includes "filename=" (toLowerCase h) = false -> filenameOf h = "attachment")
  /\ (includes "content-type:" (toLowerCase h) = false ->
      mimeTypeOf h = "application/octet-stream")
  /\ (includes "content-transfer-encoding:" (toLowerCase h) = false ->
      encodingOf (toLowerCase h) = EmptyString /\ leafDecoded rt h c = c).
Proof.
  split; [|split]; intros H.
  - unfold filenameOf, filenameRe.
    now rewrite (search_literal_absent_nocase "filename=" quotedToken h H).
  - unfold mimeTypeOf, contentTypeRe.
    now rewrite (search_literal_absent_nocase "Content-Type:" _ h H).
  - unfold encodingOf, leafDecoded, encodingRe.
    now rewrite (search_literal_absent "content-transfer-encoding:" _ _ H).
Qed.

Lemma X19_witness :
  filenameOf "Content-Disposition: attachment" = "attachment"
  /\ mimeTypeOf "Content-Disposition: attachment" = "application/octet-stream"
  /\ leafDecoded strictBase64 "Content-Type: text/plain" "a=3Db" = "a=3Db".
Proof.
  destruct (X19_header_defaults strictBase64 "Content-Disposition: attachment"
              "a=3Db") as (H1 & H2 & _).
  destruct (X19_header_defaults strictBase64 "Content-Type: text/plain"
              "a=3Db") as (_ & _ & H3).
  split; [apply H1; reflexivity|].
  split; [apply H2; reflexivity|].
  apply H3. reflexivity.
Defined.

Lemma withoutWhitespace_truthy c :
  withoutWhitespace c <> EmptyString ->
  forall encoding, truthy (base64DataOf encoding c) = true.
Proof.
  intros H encoding. unfold base64DataOf.
  destruct (String.eqb encoding "base64").
  - rewrite stripWhitespace_filter. destruct (withoutWhitespace c); [contradiction|reflexivity].
  - destruct (toBase64 c) eqn:E; [|reflexivity].
    apply toBase64_empty in E. subst c. contradiction.
Qed.

(** X20. The body walk does not look at the disposition: a text leaf
    sent as an attachment is taken both as the body candidate of its kind
    and, when its content is not blank, as an attachment. *)
Theorem X20_text_attachment_is_body_too
        (rt : string -> option string)
        (recurBody : string -> option string)
        (recurAttachments : string -> option (list attachment))
        (acc : bodies) (attachments : list attachment) (part h c : string) :
  classifyPart part = LeafPart h c ->
  includes "content-disposition: attachment" (toLowerCase h) = true ->
  withoutWhitespace c <> EmptyString ->
  (exists a, attachmentStep recurAttachments attachments part
             = Some (attachments ++ [a])%list
             /\ filename a = filenameOf h)
  /\ (includes "text/html" (toLowerCase h) = true ->
      bodyStep rt recurBody acc part
      = Some (mkBodies (leafDecoded rt h c) (textBody acc)))
  /\ (includes "text/html" (toLowerCase h) = false ->
      includes "text/plain" (toLowerCase h) = true ->
      bodyStep rt recurBody acc part
      = Some (mkBodies (htmlBody acc) (leafDecoded rt h c))).
Proof.
  intros Hc Hd Hn. split; [|split].
  - eexists. rewrite attachmentStep_classify, Hc. unfold isAttachment.
    rewrite Hd. cbn [orb]. cbv zeta.
    rewrite (withoutWhitespace_truthy c Hn). split; reflexivity.
  - intros Hh. now rewrite bodyStep_classify, Hc, Hh.
  - intros Hh Hp. now rewrite bodyStep_classify, Hc, Hh, Hp.
Qed.

Lemma X20_witness :
  (exists a,
      attachmentStep (fun _ => None) []
        (CRLF ++ "Content-Type: text/plain" ++ CRLF
           ++ "Content-Disposition: attachment; filename=notes.txt"
           ++ CRLF ++ CRLF ++ "notes" ++ CRLF)
      = Some [a] /\ filename a = "notes.txt")
  /\ bodyStep strictBase64 (fun _ => None) (mkBodies EmptyString "the body")
       (CRLF ++ "Content-Type: text/plain" ++ CRLF
          ++ "Content-Disposition: attachment; filename=notes.txt"
          ++ CRLF ++ CRLF ++ "notes" ++ CRLF)
     = Some (mkBodies EmptyString "notes").
Proof.
  destruct (X20_text_attachment_is_body_too strictBase64 (fun _ => None)
              (fun _ => None) (mkBodies EmptyString "the body") []
              (CRLF ++ "Content-Type: text/plain" ++ CRLF
                 ++ "Content-Disposition: attachment; filename=notes.txt"
                 ++ CRLF ++ CRLF ++ "notes" ++ CRLF)
              (CRLF ++ "Content-Type: text/plain" ++ CRLF
                 ++ "Content-Disposition: attachment; filename=notes.txt")
              "notes") as ((a & Ha & Hf) & _ & Hp);
    [vm_compute; reflexivity|vm_compute; reflexivity|discriminate|].
  split.
  - exists a. split; [exact Ha|]. rewrite Hf. vm_compute. reflexivity.
  - apply Hp; vm_compute; reflexivity.
Defined.

(** X21. An entry is reused exactly while its age, as the clock reads
    it, is below 300000 milliseconds: at that age or above the call
    returns another transporter, and a clock that went backwards still
    gives a reuse. *)
Theorem X21_reuse_exactly_below_ttl
        (w : world) (smtpHost : string) (smtpPort : option nat)
        (smtpUser smtpPass : string) (nowCheck nowStore : Z) (e : cacheEntry) :
  reachable w ->
  transporterCache w !! cacheKeyOf smtpHost smtpPort smtpUser = Some e ->
  (fst (getTransporter smtpHost smtpPort smtpUser smtpPass nowCheck nowStore w)
   = cachedTransporter e
   <-> (nowCheck - created e < 300000)%Z).
Proof.
  intros Hr He. change 300000%Z with TRANSPORTER_TTL. split.
  - intros E.
    destruct (Z.lt_ge_cases (nowCheck - created e) TRANSPORTER_TTL) as [|Hs];
      [assumption|exfalso].
    pose proof (getTransporter_outcome smtpHost smtpPort smtpUser smtpPass
                  nowCheck nowStore w) as O.
    inversion O as [c Hc Hf Ho|c Hc Hf t Ho|Hc t Ho].
    + rewrite He in Hc. injection Hc as <-. lia.
    + rewrite <- Ho in E. simpl in E. symmetry in E. revert E.
      exact (cached_not_new w _ e _ (reachable_invariant w Hr) He).
    + congruence.
  - intros Hf. now rewrite (getTransporter_fresh _ _ _ _ _ _ _ _ He Hf).
Qed.

Lemma X21_witness :
  let call1 := getTransporter "a.example.org" (Some 465) "ann" "secret"
                              1000 1000 initial in
  fst (getTransporter "a.example.org" (Some 465) "ann" "secret"
                      300999 300999 (snd call1)) = fst call1
  /\ fst (getTransporter "a.example.org" (Some 465) "ann" "secret"
                         301000 301000 (snd call1)) <> fst call1.
Proof.
  intros call1.
  assert (Hr : reachable (snd call1)) by (constructor; constructor).
  assert (He : transporterCache (snd call1)
               !! cacheKeyOf "a.example.org" (Some 465) "ann"
               = Some (mkEntry (fst call1) 1000)) by (vm_compute; reflexivity).
  split.
  - apply (X21_reuse_exactly_below_ttl (snd call1) "a.example.org" (Some 465)
             "ann" "secret" 300999 300999 _ Hr He). vm_compute. reflexivity.
  - intros E.
    apply (X21_reuse_exactly_below_ttl (snd call1) "a.example.org" (Some 465)
             "ann" "secret" 301000 301000 _ Hr He) in E.
    vm_compute in E. discriminate E.
Defined.

(* ================================================================== *)
(** * Properties of the list handler's answer *)

Import ListingFacts.

(** X22. The list handler sends back the latest messages first and at
    most [maxResults] of them (20 when the parameter is missing or 0):
    the answer and what is left out are together the fetched messages,
    the answer has min(maxResults, number fetched) elements in order of
    decreasing date, and no message left out is later than one sent. *)
Theorem X22_list_answer
        (maxResults : option nat) (msgs : list Listing.summary) :
  Permutation (Listing.listed maxResults msgs ++ Listing.leftOut maxResults msgs)
              msgs
  /\ length (Listing.listed maxResults msgs)
     = Nat.min (Listing.maxResultsOf maxResults) (length msgs)
  /\ Listing.latestFirst (Listing.listed maxResults msgs) = true
  /\ (forall a b, In a (Listing.listed maxResults msgs) ->
                  In b (Listing.leftOut maxResults msgs) ->
                  (Listing.date b <= Listing.date a)%Z)
  /\ Listing.maxResultsOf None = 20 /\ Listing.maxResultsOf (Some 0) = 20.
Proof.
  unfold Listing.listed, Listing.leftOut.
  pose proof (latestFirst_sort msgs) as Hs.
  rewrite <- (firstn_skipn (Listing.maxResultsOf maxResults)
                           (Listing.sortByDate msgs)) in Hs.
  destruct (latestFirst_split _ _ Hs) as [H1 H2].
  split; [|split; [|split; [|split; [|split]]]].
  - rewrite firstn_skipn. apply sortByDate_permutation.
  - rewrite length_firstn.
    now rewrite (Permutation_length (sortByDate_permutation msgs)).
  - exact H1.
  - exact H2.
  - reflexivity.
  - reflexivity.
Qed.
